(** * go-querystring, package query: Decode

    A shallow embedding of [src/query/decode.go]: [Decode], [absorbValue]
    and [convertString], together with the parts of Go's [strconv] and
    [reflect] packages they call, and the properties of the decoder stated
    in the specification.

    Conventions.
    - Go's [url.Values] (a [map[string][]string]) is a [gmap string (list string)].
    - A [reflect.Value] of a struct field is a [Value]: its kind is read off
      the constructor, so a value can never change its type.
    - The two [for v.Kind() == reflect.Ptr] loops of the source do not
      advance (the [Elem()] step is commented out), so they are modelled with
      fuel: a result [None] means the loop was still running when the fuel
      ran out.
    - Floating point is not modelled: the float type and the three library
      operations on it that the decoder calls are fields of the class
      [Platform], as is the width of Go's [int] and [uint]. *)

From Stdlib Require Import ZArith Lia String Ascii List Bool.
From stdpp Require Import base option list strings gmap.

Local Open Scope Z_scope.

(** ** Machine integers: a w-bit value is a [Z] with the wrap-around written out *)

(** Conversion to an unsigned integer of [w] bits, as Go's [uintW(x)]. *)
Definition wrap_unsigned (w x : Z) : Z := x mod 2 ^ w.

(** Conversion to a signed two's complement integer of [w] bits, as Go's [intW(x)]. *)
Definition wrap_signed (w x : Z) : Z := (x + 2 ^ (w - 1)) mod 2 ^ w - 2 ^ (w - 1).

(** ** package strconv *)

Module strconv.

(** [strconv.ErrSyntax] and [strconv.ErrRange]. *)
Inductive Err := ErrSyntax | ErrRange.

(** [strconv.NumError]: the failing function, the input and the reason. *)
Record NumError := mkNumError { Func : string; Num : string; Err_ : Err }.

Definition syntaxError (fn str : string) : NumError := mkNumError fn str ErrSyntax.
Definition rangeError (fn str : string) : NumError := mkNumError fn str ErrRange.

Definition Err_Error (e : Err) : string :=
  match e with
  | ErrSyntax => "invalid syntax"
  | ErrRange => "value out of range"
  end.

(** The [Error] method of a [NumError]; [Quote] is [strconv.Quote]. *)
Definition NumError_Error (Quote : string -> string) (e : NumError) : string :=
  "strconv." +:+ Func e +:+ ": parsing " +:+ Quote (Num e) +:+ ": " +:+ Err_Error (Err_ e).

Definition maxUint64 : Z := 2 ^ 64 - 1.

(** The digit loop of [ParseUint] for base 10 (no underscores: they are
    only accepted for base 0). [n] is the [uint64] accumulator. The result
    is the pair Go returns, the error reduced to its reason. *)
Fixpoint ParseUint_digits (bitSize : Z) (s : string) (n : Z) : Z * option Err :=
  let cutoff := maxUint64 / 10 + 1 in
  let maxVal := 2 ^ bitSize - 1 in
  match s with
  | EmptyString => (n, None)
  | String c s' =>
      let c := Z.of_N (N_of_ascii c) in
      if (48 <=? c) && (c <=? 57) then
        let d := c - 48 in
        if cutoff <=? n then (maxVal, Some ErrRange)
        else
          let n := wrap_unsigned 64 (n * 10) in
          let n1 := wrap_unsigned 64 (n + d) in
          if (n1 <? n) || (maxVal <? n1) then (maxVal, Some ErrRange)
          else ParseUint_digits bitSize s' n1
      else (0, Some ErrSyntax)
  end.

(** [strconv.ParseUint(s, 10, bitSize)] for [1 <= bitSize <= 64]. *)
Definition ParseUint (s : string) (bitSize : Z) : Z * option NumError :=
  let fnParseUint := "ParseUint" in
  match s with
  | EmptyString => (0, Some (syntaxError fnParseUint s))
  | _ =>
      match ParseUint_digits bitSize s 0 with
      | (n, None) => (n, None)
      | (n, Some e) => (n, Some (mkNumError fnParseUint s e))
      end
  end.

(** [strconv.ParseInt(s, 10, bitSize)] for [1 <= bitSize <= 64]. *)
Definition ParseInt (s0 : string) (bitSize : Z) : Z * option NumError :=
  let fnParseInt := "ParseInt" in
  match s0 with
  | EmptyString => (0, Some (syntaxError fnParseInt s0))
  | String c rest =>
      let '(neg, s) :=
        if Ascii.eqb c "+" then (false, rest)
        else if Ascii.eqb c "-" then (true, rest)
        else (false, s0) in
      let '(un, err) := ParseUint s bitSize in
      match err with
      | Some {| Err_ := ErrSyntax |} => (0, Some (syntaxError fnParseInt s0))
      | _ =>
          let cutoff := 2 ^ (bitSize - 1) in
          if negb neg && (cutoff <=? un) then (cutoff - 1, Some (rangeError fnParseInt s0))
          else if neg && (cutoff <? un) then (- cutoff, Some (rangeError fnParseInt s0))
          else
            let n := wrap_signed 64 un in
            (if neg then wrap_signed 64 (- n) else n, None)
      end
  end.

(** [strconv.ParseBool]. *)
Definition ParseBool (str : string) : bool * option NumError :=
  if bool_decide (str ∈ ["1"; "t"; "T"; "true"; "TRUE"; "True"]) then (true, None)
  else if bool_decide (str ∈ ["0"; "f"; "F"; "false"; "FALSE"; "False"]) then (false, None)
  else (false, Some (syntaxError "ParseBool" str)).

End strconv.

(** ** package reflect: kinds *)

Module reflect.

(** [reflect.Kind], in the order of the library's constants. *)
Inductive Kind :=
| Invalid | Bool
| Int | Int8 | Int16 | Int32 | Int64
| Uint | Uint8 | Uint16 | Uint32 | Uint64 | Uintptr
| Float32 | Float64 | Complex64 | Complex128
| Array | Chan | Func | Interface | Map | Ptr | Slice | String | Struct
| UnsafePointer.

(** [Kind.String], what [%v] prints for a kind. *)
Definition Kind_String (k : Kind) : string :=
  match k with
  | Invalid => "invalid" | Bool => "bool"
  | Int => "int" | Int8 => "int8" | Int16 => "int16" | Int32 => "int32" | Int64 => "int64"
  | Uint => "uint" | Uint8 => "uint8" | Uint16 => "uint16" | Uint32 => "uint32"
  | Uint64 => "uint64" | Uintptr => "uintptr"
  | Float32 => "float32" | Float64 => "float64"
  | Complex64 => "complex64" | Complex128 => "complex128"
  | Array => "array" | Chan => "chan" | Func => "func" | Interface => "interface"
  | Map => "map" | Ptr => "ptr" | Slice => "slice" | String => "string"
  | Struct => "struct" | UnsafePointer => "unsafe.Pointer"
  end.

End reflect.

(** ** What is taken as given *)

(** The platform and floating point: the width of [int] and [uint]
    ([strconv.IntSize], 32 or 64), the type of [float64] values,
    [strconv.ParseFloat(s, 64)] (its value, or its error when that is not
    nil), [reflect]'s [overflowFloat32] and the conversion
    [float64(float32(x))] that [SetFloat] performs on a [float32] field. *)
Class Platform := {
  IntSize : Z;
  IntSize_32_or_64 : IntSize = 32 \/ IntSize = 64;
  float64 : Type;
  ParseFloat : string -> float64 + strconv.NumError;
  overflowFloat32 : float64 -> bool;
  float32 : float64 -> float64;
}.

(** A 64-bit platform for programs without floating-point values: with the
    empty type for [float64] no record can hold a float field, so the float
    operations are never reached. The concrete runs below use it. *)
Definition amd64_no_float : Platform := {|
  IntSize := 64;
  IntSize_32_or_64 := or_intror eq_refl;
  float64 := Empty_set;
  ParseFloat s := inr (strconv.syntaxError "ParseFloat" s);
  overflowFloat32 x := match x with end;
  float32 x := x;
|}.

(** ** Strings *)

(** [strings.Index(s, sub) >= 0]: [sub] occurs in [s]. *)
Fixpoint contains (s sub : string) : bool :=
  String.prefix sub s ||
  match s with
  | EmptyString => false
  | String _ s' => contains s' sub
  end.

(** [strings.Split(s, ",")]: the segments between commas, never an empty list. *)
Fixpoint Split_comma (s : string) : list string :=
  match s with
  | EmptyString => [EmptyString]
  | String c s' =>
      if Ascii.eqb c "," then EmptyString :: Split_comma s'
      else match Split_comma s' with
           | seg :: segs => String c seg :: segs
           | [] => [String c EmptyString]
           end
  end.

(** ** package query *)

(** [tagOptions]: the segments of a tag after the name. *)
Abbreviation tagOptions := (list string).

(** Modelled from the spec: [parseTag] is declared in the encoder's file,
    which is not among the sources. The spec (4.1): it splits the raw
    annotation on commas into a first segment, the name (possibly empty),
    and zero or more subsequent segments, the options. *)
Definition parseTag (tag : string) : string * tagOptions :=
  match Split_comma tag with
  | name :: opts => (name, opts)
  | [] => (EmptyString, [])
  end.

(** Modelled from the spec: the option set's single query
    [Contains(flag) -> bool] (4.1), declared with [parseTag]. *)
Definition Contains (o : tagOptions) (opt : string) : bool :=
  bool_decide (opt ∈ o).

(** [url.Values]. Indexing a Go map gives the value and whether the key is
    present: the lookup [toxicValues !! name]. *)
Abbreviation Values := (gmap string (list string)).

#[global] Instance Kind_eq_dec : EqDecision reflect.Kind.
Proof. solve_decision. Defined.

Section Query.
Context {platform : Platform}.

(** *** Values of struct fields *)

Inductive IntKind := kInt | kInt8 | kInt16 | kInt32 | kInt64.
(** [uintptr] is not among the unsigned kinds: the switch of
    [convertString] does not list [reflect.Uintptr], so such a field ends
    in its default case. *)
Inductive UintKind := kUint | kUint8 | kUint16 | kUint32 | kUint64.
Inductive FloatKind := kFloat32 | kFloat64.
(** The kinds whose values the decoder never reads or writes. A field of
    kind [Struct] is a nested or embedded record. *)
Inductive OtherKind :=
| kUintptr | kComplex64 | kComplex128 | kArray | kChan | kFunc | kInterface
| kMap | kSlice | kStruct | kUnsafePointer.

(** The [reflect.Value] of a field, as far as the decoder looks into it. A
    pointer is nil or not: what it points to is never read, since both
    [Elem()] calls on fields are commented out. *)
Inductive Value :=
| BoolValue (b : bool)
| IntValue (k : IntKind) (n : Z)
| UintValue (k : UintKind) (n : Z)
| FloatValue (k : FloatKind) (x : float64)
| StringValue (s : string)
| PtrValue (isNil : bool)
| OtherValue (k : OtherKind).

Definition IntKind_Kind (k : IntKind) : reflect.Kind :=
  match k with
  | kInt => reflect.Int | kInt8 => reflect.Int8 | kInt16 => reflect.Int16
  | kInt32 => reflect.Int32 | kInt64 => reflect.Int64
  end.

Definition UintKind_Kind (k : UintKind) : reflect.Kind :=
  match k with
  | kUint => reflect.Uint | kUint8 => reflect.Uint8 | kUint16 => reflect.Uint16
  | kUint32 => reflect.Uint32 | kUint64 => reflect.Uint64
  end.

Definition FloatKind_Kind (k : FloatKind) : reflect.Kind :=
  match k with kFloat32 => reflect.Float32 | kFloat64 => reflect.Float64 end.

Definition OtherKind_Kind (k : OtherKind) : reflect.Kind :=
  match k with
  | kUintptr => reflect.Uintptr
  | kComplex64 => reflect.Complex64 | kComplex128 => reflect.Complex128
  | kArray => reflect.Array | kChan => reflect.Chan | kFunc => reflect.Func
  | kInterface => reflect.Interface | kMap => reflect.Map | kSlice => reflect.Slice
  | kStruct => reflect.Struct | kUnsafePointer => reflect.UnsafePointer
  end.

(** [Value.Kind]. *)
Definition Kind (v : Value) : reflect.Kind :=
  match v with
  | BoolValue _ => reflect.Bool
  | IntValue k _ => IntKind_Kind k
  | UintValue k _ => UintKind_Kind k
  | FloatValue k _ => FloatKind_Kind k
  | StringValue _ => reflect.String
  | PtrValue _ => reflect.Ptr
  | OtherValue k => OtherKind_Kind k
  end.

(** [v.typ.size * 8] for the integer kinds. *)
Definition IntKind_bits (k : IntKind) : Z :=
  match k with kInt => IntSize | kInt8 => 8 | kInt16 => 16 | kInt32 => 32 | kInt64 => 64 end.

Definition UintKind_bits (k : UintKind) : Z :=
  match k with kUint => IntSize | kUint8 => 8 | kUint16 => 16 | kUint32 => 32 | kUint64 => 64 end.

(** [Value.IsNil]; the decoder calls it on pointers only. *)
Definition IsNil (v : Value) : bool :=
  match v with PtrValue isNil => isNil | _ => false end.

(** [Value.OverflowInt]:
    [trunc := (x << (64 - bitSize)) >> (64 - bitSize); return x != trunc],
    on [int64]. *)
Definition OverflowInt (v : Value) (x : Z) : bool :=
  match v with
  | IntValue k _ =>
      let bitSize := IntKind_bits k in
      let trunc := Z.shiftr (wrap_signed 64 (Z.shiftl x (64 - bitSize))) (64 - bitSize) in
      negb (x =? trunc)
  | _ => false
  end.

(** [Value.OverflowUint]: the same on [uint64]. *)
Definition OverflowUint (v : Value) (x : Z) : bool :=
  match v with
  | UintValue k _ =>
      let bitSize := UintKind_bits k in
      let trunc := Z.shiftr (wrap_unsigned 64 (Z.shiftl x (64 - bitSize))) (64 - bitSize) in
      negb (x =? trunc)
  | _ => false
  end.

(** [Value.OverflowFloat]. *)
Definition OverflowFloat (v : Value) (x : float64) : bool :=
  match v with
  | FloatValue kFloat32 _ => overflowFloat32 x
  | _ => false
  end.

(** The setters store the argument converted to the field's type. Called
    on a value of another kind they panic in Go; the decoder calls each
    under the matching case of its switch only. *)
Definition SetInt (v : Value) (x : Z) : Value :=
  match v with IntValue k _ => IntValue k (wrap_signed (IntKind_bits k) x) | _ => v end.

Definition SetUint (v : Value) (x : Z) : Value :=
  match v with UintValue k _ => UintValue k (wrap_unsigned (UintKind_bits k) x) | _ => v end.

Definition SetFloat (v : Value) (x : float64) : Value :=
  match v with
  | FloatValue kFloat32 _ => FloatValue kFloat32 (float32 x)
  | FloatValue kFloat64 _ => FloatValue kFloat64 x
  | _ => v
  end.

Definition SetBool (v : Value) (x : bool) : Value :=
  match v with BoolValue _ => BoolValue x | _ => v end.

Definition SetString (v : Value) (x : string) : Value :=
  match v with StringValue _ => StringValue x | _ => v end.

(** *** Struct types and struct values *)

(** A type's [DecodeValues(key string, v reflect.Value) error] method, for
    a type that implements [Decoder]. It is given the string, whether [v]
    can be set, and the field's value; it answers the value it leaves in
    the field and the text of the error it returns, if any. The walk keeps
    the answered value only when the field can be set: a method that
    returns has not assigned through a value that cannot be set, since
    [reflect] panics there. Two things a real method can do are outside
    this model: it can panic or never return (as can the type assertion
    [sv.Interface().(Decoder)]), and it can write to what lies behind a
    map, a slice or a pointer, which is no part of a [Value], whether the
    field can be set or not. What is proved below about a call returning,
    or about a record passed by value staying as it was, is therefore
    stated for records none of whose field types has a [DecodeValues]. *)
Definition Decoder : Type := string -> bool -> Value -> Value * option string.

(** [reflect.StructField]. [Tag] holds the tag's key-value pairs;
    [DecodeValues] is the method of the field's type when
    [sv.Type().Implements(decoderType)], and [None] when it does not. *)
Record StructField := mkStructField {
  Name : string;
  PkgPath : string;
  Tag : list (string * string);
  Anonymous : bool;
  DecodeValues : option Decoder;
}.

(** [StructTag.Get]: the value under [key], the empty string when there is none. *)
Fixpoint Tag_Get (tag : list (string * string)) (key : string) : string :=
  match tag with
  | [] => EmptyString
  | (k, v) :: tag' => if bool_decide (k = key) then v else Tag_Get tag' key
  end.

(** The [i]-th field of a struct value: [typ.Field(i)] and [val.Field(i)]. *)
Record Field := mkField { sf : StructField; sv : Value }.

(** [Value.CanSet] of [val.Field(i)]: the struct is addressable and the
    field is exported. *)
Definition CanSet (addressable : bool) (f : StructField) : bool :=
  addressable && bool_decide (PkgPath f = EmptyString).

(** The argument [v interface{}] of [Decode], once it is not nil: a nil
    pointer, a pointer to another value, a struct, or a value of any other
    kind [k] ([k] is neither [Ptr] nor [Struct]). Pointers that lead back
    to themselves (Go's [type P *P]) are left out. *)
Inductive Target :=
| NilPtr
| PtrTo (elem : Target)
| Struct (fields : list Field)
| Other (k : reflect.Kind).

(** *** Errors *)

(** The errors [Decode] returns, one constructor per place that makes
    one: the four [fmt.Errorf] calls, the errors of [strconv], and the
    error of a field's own [DecodeValues]. *)
Inductive error :=
| ExpectsStruct (k : reflect.Kind)
| NilPointer
| Incompatible (toxicStr : string) (k : reflect.Kind)
| Unsupported (k : reflect.Kind)
| ParseError (e : strconv.NumError)
| DecoderError (msg : string).

(** [err.Error()]. [Quote] is what the verb [%q] prints for a string
    ([strconv.Quote]); [%v] prints a kind by [Kind.String]. *)
Definition Error (Quote : string -> string) (e : error) : string :=
  match e with
  | ExpectsStruct k =>
      "query:  Decode() expects struct input.  Got " +:+ reflect.Kind_String k
  | NilPointer => "query:  Attempt to Decode() into nil pointer"
  | Incompatible toxicStr k =>
      "query:  Query arg value " +:+ Quote toxicStr +:+
      " incompatible with field value type " +:+ reflect.Kind_String k
  | Unsupported k => "query:  Unsupported field value type " +:+ reflect.Kind_String k
  | ParseError e => strconv.NumError_Error Quote e
  | DecoderError msg => msg
  end.

(** *** convertString *)

(** [for v.Kind() == reflect.Ptr { if v.IsNil() { return Errorf(...) } }]:
    the loop of [convertString]. [Some None]: the loop was left, go on;
    [Some (Some e)]: return [e]; [None]: out of fuel. *)
Fixpoint convertString_loop (fuel : nat) (v : Value) : option (option error) :=
  match fuel with
  | O => None
  | S fuel' =>
      if bool_decide (Kind v = reflect.Ptr) then
        if IsNil v then Some (Some NilPointer)
        else (* v = v.Elem() is commented out *) convertString_loop fuel' v
      else Some None
  end.

(** [convertString(toxicStr, v, opts)], with [v.CanSet()] as [canSet]. The
    result is the value the field holds afterwards and the error returned
    ([None] for nil). *)
Definition convertString (fuel : nat) (toxicStr : string) (v : Value) (canSet : bool)
    (opts : tagOptions) : option (Value * option error) :=
  match convertString_loop fuel v with
  | None => None
  | Some (Some err) => Some (v, Some err)
  | Some None =>
      if negb canSet then Some (v, None)
      else
        let kind := Kind v in
        match kind with
        | reflect.Int | reflect.Int8 | reflect.Int16 | reflect.Int32 | reflect.Int64 =>
            let '(n, err) := strconv.ParseInt toxicStr 64 in
            match err with
            | Some err => Some (v, Some (ParseError err))
            | None =>
                if OverflowInt v n then Some (v, Some (Incompatible toxicStr kind))
                else Some (SetInt v n, None)
            end
        | reflect.Uint | reflect.Uint8 | reflect.Uint16 | reflect.Uint32 | reflect.Uint64 =>
            let '(n, err) := strconv.ParseUint toxicStr 64 in
            match err with
            | Some err => Some (v, Some (ParseError err))
            | None =>
                if OverflowUint v n then Some (v, Some (Incompatible toxicStr kind))
                else Some (SetUint v n, None)
            end
        | reflect.Float32 | reflect.Float64 =>
            match ParseFloat toxicStr with
            | inr err => Some (v, Some (ParseError err))
            | inl n =>
                if OverflowFloat v n then Some (v, Some (Incompatible toxicStr kind))
                else Some (SetFloat v n, None)
            end
        | reflect.Bool =>
            let '(n, err) := strconv.ParseBool toxicStr in
            match err with
            | Some err => Some (v, Some (ParseError err))
            | None => Some (SetBool v n, None)
            end
        | reflect.String => Some (SetString v toxicStr, None)
        | _ => Some (v, Some (Unsupported kind))
        end
  end.

(** *** absorbValue *)

(** Lines 87-106 of the loop body: the name a field is looked up under and
    its options, or [None] when the field is passed over ([continue]):
    unexported, tagged ["-"], or an embedded struct with no name in its tag. *)
Definition resolveName (f : Field) : option (string * tagOptions) :=
  if negb (bool_decide (PkgPath (sf f) = EmptyString)) then None
  else
    let tag := Tag_Get (Tag (sf f)) "url" in
    if bool_decide (tag = "-") then None
    else
      let '(name, opts) := parseTag tag in
      if bool_decide (name = EmptyString) then
        if Anonymous (sf f) && bool_decide (Kind (sv f) = reflect.Struct) then None
        else Some (Name (sf f), opts)
      else Some (name, opts).

(** [for sv.Kind() == reflect.Ptr { if sv.IsNil() { break } }]: the loop of
    [absorbValue]. [Some tt]: the loop was left; [None]: out of fuel. *)
Fixpoint absorbValue_loop (fuel : nat) (sv : Value) : option unit :=
  match fuel with
  | O => None
  | S fuel' =>
      if bool_decide (Kind sv = reflect.Ptr) then
        if IsNil sv then Some tt
        else (* sv = sv.Elem() is commented out *) absorbValue_loop fuel' sv
      else Some tt
  end.

(** One turn of the loop of [absorbValue], for the field [f] of a struct
    that is [addressable] or not. The result is the value the field holds
    afterwards and [Some err] for [return err], [None] when the loop goes
    on to the next field. *)
Definition absorbField (fuel : nat) (toxicValues : Values) (addressable : bool)
    (scope : string) (f : Field) : option (Value * option error) :=
  let sv := sv f in
  let canSet := CanSet addressable (sf f) in
  match resolveName f with
  | None => Some (sv, None)
  | Some (name, opts) =>
      if Contains opts "seen" then
        if negb (bool_decide (Kind sv = reflect.Bool)) || negb canSet then Some (sv, None)
        else
          match toxicValues !! name with
          | Some _ => Some (SetBool sv true, None)
          | None => Some (sv, None)
          end
      else
        let name :=
          if bool_decide (scope = EmptyString) then name
          else scope +:+ "[" +:+ name +:+ "]" in
        match DecodeValues (sf f) with
        | Some m =>
            match toxicValues !! name with
            | Some (toxicValue :: _) =>
                let '(sv', err) := m toxicValue canSet sv in
                Some (if canSet then sv' else sv, DecoderError <$> err)
            | _ => Some (sv, None)
            end
        | None =>
            if bool_decide (Kind sv = reflect.Slice) || bool_decide (Kind sv = reflect.Array)
            then Some (sv, None)
            else
              match toxicValues !! name with
              | Some (toxicValue :: _) =>
                  match absorbValue_loop fuel sv with
                  | None => None
                  | Some _ => convertString fuel toxicValue sv canSet opts
                  end
              | _ => Some (sv, None)
              end
        end
  end.

(** [absorbValue(toxicValues, val, scope)] on the fields of [val], in
    declaration order. The result is the fields afterwards and the error
    returned. *)
Fixpoint absorbValue (fuel : nat) (toxicValues : Values) (addressable : bool)
    (fields : list Field) (scope : string) : option (list Field * option error) :=
  match fields with
  | [] => Some ([], None)
  | f :: rest =>
      match absorbField fuel toxicValues addressable scope f with
      | None => None
      | Some (v, Some err) => Some (mkField (sf f) v :: rest, Some err)
      | Some (v, None) =>
          match absorbValue fuel toxicValues addressable rest scope with
          | None => None
          | Some (rest', err) => Some (mkField (sf f) v :: rest', err)
          end
      end
  end.

(** *** Decode *)

(** [Decode] from [val := reflect.ValueOf(v)] on: the loop that follows
    pointers, the check for a struct and the call of [absorbValue].
    [addressable] is false for [reflect.ValueOf(v)] and true for every
    [val.Elem()]. *)
Fixpoint Decode_val (fuel : nat) (toxicValues : Values) (addressable : bool)
    (val : Target) : option (Target * option error) :=
  match val with
  | NilPtr => Some (val, None)
  | PtrTo elem =>
      match Decode_val fuel toxicValues true elem with
      | None => None
      | Some (elem', err) => Some (PtrTo elem', err)
      end
  | Struct fields =>
      match absorbValue fuel toxicValues addressable fields EmptyString with
      | None => None
      | Some (fields', err) => Some (Struct fields', err)
      end
  | Other k => Some (val, Some (ExpectsStruct k))
  end.

(** [Decode(toxicValues, v)]; [v = None] is the nil interface. The result
    is what [v] holds afterwards and the error returned ([None] for nil);
    no result ([None]) when a loop is still running after [fuel] turns. *)
Definition Decode (fuel : nat) (toxicValues : Values) (v : option Target)
    : option (option Target * option error) :=
  match v with
  | None => Some (None, None)
  | Some val =>
      match Decode_val fuel toxicValues false val with
      | None => None
      | Some (val', err) => Some (Some val', err)
      end
  end.

End Query.

(** ** Reading the result of a call *)

Section Results.
Context {platform : Platform}.

(** The record [Decode] works on: the struct at the end of the pointers of
    [val], and whether it is addressable (reached through a pointer). *)
Fixpoint structOf (addressable : bool) (val : Target) : option (bool * list Field) :=
  match val with
  | NilPtr => None
  | PtrTo elem => structOf true elem
  | Struct fields => Some (addressable, fields)
  | Other _ => None
  end.

(** [val] with the fields of that record replaced. *)
Fixpoint withFields (val : Target) (fields : list Field) : Target :=
  match val with
  | PtrTo elem => PtrTo (withFields elem fields)
  | Struct _ => Struct fields
  | _ => val
  end.

(** What the pointers of [val] end in: [NilPtr], a [Struct] or an [Other]. *)
Fixpoint endOf (val : Target) : Target :=
  match val with
  | PtrTo elem => endOf elem
  | _ => val
  end.

(** What [absorbValue] does once the fields before [f] are done and are
    now [pre']: the turn of [f], then the fields after it. *)
Definition absorbFrom (fuel : nat) (toxicValues : Values) (addressable : bool)
    (pre' : list Field) (f : Field) (post : list Field)
    : option (list Field * option error) :=
  match absorbField fuel toxicValues addressable EmptyString f with
  | None => None
  | Some (v, Some err) => Some (pre' ++ mkField (sf f) v :: post, Some err)
  | Some (v, None) =>
      match absorbValue fuel toxicValues addressable post EmptyString with
      | None => None
      | Some (post', err) => Some (pre' ++ mkField (sf f) v :: post', err)
      end
  end.

(** [Decode] going on with the fields after [f], which is now [f']. *)
Definition absorbRest (fuel : nat) (toxicValues : Values) (addressable : bool)
    (val : Target) (pre' : list Field) (f' : Field) (post : list Field)
    : option (option Target * option error) :=
  match absorbValue fuel toxicValues addressable post EmptyString with
  | None => None
  | Some (post', err) => Some (Some (withFields val (pre' ++ f' :: post')), err)
  end.

(** The options of a field's tag, and the name the field is looked up
    under: the name in the tag, or the field's own name when the tag gives
    none. *)
Definition optionsOf (f : Field) : tagOptions :=
  snd (parseTag (Tag_Get (Tag (sf f)) "url")).

Definition nameOf (f : Field) : string :=
  let name := fst (parseTag (Tag_Get (Tag (sf f)) "url")) in
  if bool_decide (name = EmptyString) then Name (sf f) else name.

(** Two value sequences of a key look the same to the decoder: both absent,
    both empty, or both with the same first value. *)
Definition sameFirst (o1 o2 : option (list string)) : Prop :=
  match o1, o2 with
  | None, None => True
  | Some l1, Some l2 => head l1 = head l2
  | _, _ => False
  end.

(** The field [f] comes to [convertString] with the string [toxicValue]:
    it is not passed over, has no [seen] option, its type has no
    [DecodeValues], it is no slice or array, and [toxicValue] is the first
    value under its name. *)
Definition converted (toxicValues : Values) (f : Field) (toxicValue : string) : Prop :=
  exists name opts rest,
    resolveName f = Some (name, opts) /\
    Contains opts "seen" = false /\
    DecodeValues (sf f) = None /\
    Kind (sv f) <> reflect.Slice /\ Kind (sv f) <> reflect.Array /\
    toxicValues !! name = Some (toxicValue :: rest).

(** A field of a struct passed by value with nothing in it that could
    fail: it is no pointer that comes to conversion, and its type has no
    [DecodeValues] that returns an error. *)
Definition harmless (toxicValues : Values) (f : Field) : Prop :=
  (Kind (sv f) = reflect.Ptr ->
   forall toxicValue, ~ converted toxicValues f toxicValue) /\
  (forall d toxicValue,
     DecodeValues (sf f) = Some d -> snd (d toxicValue false (sv f)) = None).

End Results.

(** ** Records for the concrete runs *)

Section Examples.
Context {platform : Platform}.

(** An exported field [name] with the tag [`url:"tag"`] (no tag when [tag]
    is empty) of a type without [DecodeValues]. *)
Definition exported (name tag : string) (v : Value) : Field :=
  mkField
    (mkStructField name EmptyString
       (if bool_decide (tag = EmptyString) then [] else [("url", tag)]) false None)
    v.

(** [type intsize_1 struct { B int8 }], of the tests. *)
Definition intsize_1 (B : Z) : list Field := [exported "B" "" (IntValue kInt8 B)].

(** [type uintsize_1 struct { B uint16 }], of the tests. *)
Definition uintsize_1 (B : Z) : list Field := [exported "B" "" (UintValue kUint16 B)].


(** [type seen_2 struct { N int `url:"scale"`; E bool `url:"scale,seen"` }]:
    the tests' [seen_1] with an [int] for its [float32]. *)
Definition seen_2 (N : Z) (E : bool) : list Field :=
  [exported "N" "scale" (IntValue kInt N); exported "E" "scale,seen" (BoolValue E)].

(** [type ptr_1 struct { B int; P *int }]; [P] is nil or not. *)
Definition ptr_1 (B : Z) (P_isNil : bool) : list Field :=
  [exported "B" "" (IntValue kInt B); exported "P" "" (PtrValue P_isNil)].


(** [type echo string], with
    [func (e echo) DecodeValues(key string, v reflect.Value) error
       { if v.CanSet() { v.SetString(key) }; return nil }]:
    a field that can be set ends up holding the string its method was
    called with. *)
Definition echo_DecodeValues : Decoder :=
  fun key canSet v => (if canSet then SetString v key else v, None).

(** [type echo_1 struct { A echo }]. *)
Definition echo_1 (A : string) : list Field :=
  [mkField (mkStructField "A" EmptyString [] false (Some echo_DecodeValues)) (StringValue A)].

(** [type flat_2 struct { A string; B int; C uint; E bool }]: the tests'
    [flat_1] without its [float32] field. *)
Definition flat_2 (A : string) (B C : Z) (E : bool) : list Field :=
  [exported "A" "" (StringValue A); exported "B" "" (IntValue kInt B);
   exported "C" "" (UintValue kUint C); exported "E" "" (BoolValue E)].

(** [type hidden_1 struct { secret int; Skip int `url:"-"` }]: an unexported
    field and an excluded one. *)
Definition hidden_1 (secret Skip : Z) : list Field :=
  [mkField (mkStructField "secret" "query" [] false None) (IntValue kInt secret);
   exported "Skip" "-" (IntValue kInt Skip)].

End Examples.

(** ** Proofs *)

Section Walk.
Context {platform : Platform}.

(** *** Strings *)

Lemma prefix_app (sub post : string) : String.prefix sub (sub +:+ post) = true.
Proof.
  induction sub as [|c sub IH].
  - now destruct post.
  - change (String.prefix (String c sub) (String c (sub +:+ post)) = true).
    simpl. destruct (Ascii.ascii_dec c c); [exact IH | congruence].
Qed.

Lemma contains_prefix (s sub : string) :
  String.prefix sub s = true -> contains s sub = true.
Proof. intros Hp. destruct s; cbn [contains]; rewrite Hp; reflexivity. Qed.

Lemma contains_app (pre sub post : string) :
  contains (pre +:+ sub +:+ post) sub = true.
Proof.
  induction pre as [|c pre IH].
  - change (contains (sub +:+ post) sub = true). apply contains_prefix, prefix_app.
  - change (contains (String c (pre +:+ sub +:+ post)) sub = true).
    simpl. rewrite IH. apply orb_true_r.
Qed.

Lemma contains_skip (pre s sub : string) :
  contains s sub = true -> contains (pre +:+ s) sub = true.
Proof.
  intros Hs. induction pre as [|c pre IH]; [exact Hs|].
  change (contains (String c (pre +:+ s)) sub = true).
  simpl. rewrite IH. apply orb_true_r.
Qed.

Lemma append_empty_r (s : string) : s +:+ EmptyString = s.
Proof.
  induction s as [|c s IH]; [reflexivity|].
  change (String c (s +:+ EmptyString) = String c s). now rewrite IH.
Qed.

Lemma contains_suffix (pre sub : string) : contains (pre +:+ sub) sub = true.
Proof.
  rewrite <- (append_empty_r sub) at 1. apply contains_app.
Qed.

(** *** The pointer loops *)

Lemma convertString_loop_not_ptr fuel v :
  Kind v <> reflect.Ptr -> convertString_loop (S fuel) v = Some None.
Proof. intros Hk. simpl. now rewrite bool_decide_eq_false_2. Qed.

Lemma convertString_loop_nil fuel :
  convertString_loop (S fuel) (PtrValue true) = Some (Some NilPointer).
Proof. reflexivity. Qed.

Lemma convertString_loop_spins fuel :
  convertString_loop fuel (PtrValue false) = None.
Proof. induction fuel as [|fuel IH]; [reflexivity | exact IH]. Qed.

Lemma absorbValue_loop_not_ptr fuel v :
  Kind v <> reflect.Ptr -> absorbValue_loop (S fuel) v = Some tt.
Proof. intros Hk. simpl. now rewrite bool_decide_eq_false_2. Qed.

Lemma absorbValue_loop_spins fuel :
  absorbValue_loop fuel (PtrValue false) = None.
Proof. induction fuel as [|fuel IH]; [reflexivity | exact IH]. Qed.

(** One turn decides either loop: more fuel changes nothing. *)
Lemma convertString_loop_fuel fuel v :
  convertString_loop (S fuel) v = convertString_loop 1 v.
Proof.
  induction fuel as [|fuel IH]; [reflexivity|].
  change (convertString_loop (S (S fuel)) v) with
    (if bool_decide (Kind v = reflect.Ptr)
     then if IsNil v then Some (Some NilPointer) else convertString_loop (S fuel) v
     else Some None).
  rewrite IH. simpl. repeat case_match; reflexivity.
Qed.

Lemma absorbValue_loop_fuel fuel v :
  absorbValue_loop (S fuel) v = absorbValue_loop 1 v.
Proof.
  induction fuel as [|fuel IH]; [reflexivity|].
  change (absorbValue_loop (S (S fuel)) v) with
    (if bool_decide (Kind v = reflect.Ptr)
     then if IsNil v then Some tt else absorbValue_loop (S fuel) v
     else Some tt).
  rewrite IH. simpl. repeat case_match; reflexivity.
Qed.

(** *** The walk over the fields *)

Lemma absorbValue_app fuel m a pre pre' f post :
  absorbValue fuel m a pre EmptyString = Some (pre', None) ->
  absorbValue fuel m a (pre ++ f :: post) EmptyString = absorbFrom fuel m a pre' f post.
Proof.
  revert pre'. induction pre as [|g pre IH]; intros pre' Hpre; simpl in *.
  - injection Hpre as <-. unfold absorbFrom. simpl.
    repeat case_match; reflexivity.
  - destruct (absorbField fuel m a EmptyString g) as [[v [e|]]|]; try discriminate.
    destruct (absorbValue fuel m a pre EmptyString) as [[r [e|]]|] eqn:E; try discriminate.
    injection Hpre as <-. rewrite (IH r eq_refl). unfold absorbFrom.
    repeat case_match; simplify_eq; reflexivity.
Qed.

(** Every field of the result is the field it was, or what its own turn
    made of it; the turns before an error all ended without one. *)
Lemma absorbValue_lookup fuel m a fs fs' err i f :
  absorbValue fuel m a fs EmptyString = Some (fs', err) ->
  fs !! i = Some f ->
  exists v, fs' !! i = Some (mkField (sf f) v) /\
    (v = sv f \/ exists e, absorbField fuel m a EmptyString f = Some (v, e)).
Proof.
  revert fs' err i. induction fs as [|g fs IH]; intros fs' err i Habs Hi; [done|].
  simpl in Habs.
  destruct (absorbField fuel m a EmptyString g) as [[v [e|]]|] eqn:Eg; try discriminate.
  - injection Habs as <- <-. destruct i as [|i]; simpl in *.
    + injection Hi as <-. eauto.
    + exists (sv f). split; [|now left]. rewrite Hi. now destruct f.
  - destruct (absorbValue fuel m a fs EmptyString) as [[r e]|] eqn:E; try discriminate.
    injection Habs as <- <-. destruct i as [|i]; simpl in *.
    + injection Hi as <-. eauto.
    + eapply IH; eauto.
Qed.

(** After a walk without error every field is what its own turn made of it. *)
Lemma absorbValue_ok_lookup fuel m a fs fs' i f :
  absorbValue fuel m a fs EmptyString = Some (fs', None) ->
  fs !! i = Some f ->
  exists v, fs' !! i = Some (mkField (sf f) v) /\
    absorbField fuel m a EmptyString f = Some (v, None).
Proof.
  revert fs' i. induction fs as [|g fs IH]; intros fs' i Habs Hi; [done|].
  simpl in Habs.
  destruct (absorbField fuel m a EmptyString g) as [[v [e|]]|] eqn:Eg; try discriminate.
  destruct (absorbValue fuel m a fs EmptyString) as [[r [e|]]|] eqn:E; try discriminate.
  injection Habs as <-. destruct i as [|i]; simpl in *.
  - injection Hi as <-. eauto.
  - eapply IH; eauto.
Qed.

(** *** Decode and the record it works on *)

Lemma Decode_val_structOf fuel m a a' val fs :
  structOf a val = Some (a', fs) ->
  Decode_val fuel m a val =
    match absorbValue fuel m a' fs EmptyString with
    | None => None
    | Some (fs', err) => Some (withFields val fs', err)
    end.
Proof.
  revert a. induction val as [|elem IH|fields|k]; intros a Hs; simpl in *; try discriminate.
  - rewrite (IH _ Hs). repeat case_match; reflexivity.
  - now injection Hs as <- <-.
Qed.

Lemma Decode_structOf fuel m a val fs :
  structOf false val = Some (a, fs) ->
  Decode fuel m (Some val) =
    match absorbValue fuel m a fs EmptyString with
    | None => None
    | Some (fs', err) => Some (Some (withFields val fs'), err)
    end.
Proof.
  intros Hs. unfold Decode. rewrite (Decode_val_structOf _ _ _ _ _ _ Hs).
  repeat case_match; simplify_eq; reflexivity.
Qed.

Lemma structOf_withFields a a' val fs fs' :
  structOf a val = Some (a', fs) -> structOf a (withFields val fs') = Some (a', fs').
Proof.
  revert a. induction val as [|elem IH|fields|k]; intros a Hs; simpl in *; try discriminate.
  - eauto.
  - now injection Hs as <- <-.
Qed.

(** [Decode] seen from one field of the record: the fields before it done,
    its own turn decides whether the call ends there or goes on. *)
Lemma Decode_at_field fuel m val a pre pre' f post :
  structOf false val = Some (a, pre ++ f :: post) ->
  absorbValue fuel m a pre EmptyString = Some (pre', None) ->
  Decode fuel m (Some val) =
    match absorbField fuel m a EmptyString f with
    | None => None
    | Some (v, Some err) =>
        Some (Some (withFields val (pre' ++ mkField (sf f) v :: post)), Some err)
    | Some (v, None) => absorbRest fuel m a val pre' (mkField (sf f) v) post
    end.
Proof.
  intros Hs Hpre. rewrite (Decode_structOf _ _ _ _ _ Hs).
  rewrite (absorbValue_app _ _ _ _ _ _ _ Hpre). unfold absorbFrom, absorbRest.
  repeat case_match; simplify_eq; reflexivity.
Qed.

End Walk.

Section Integers.
Context {platform : Platform}.

(** *** Machine integers *)

Lemma wrap_signed_range x : - 2 ^ 63 <= wrap_signed 64 x < 2 ^ 63.
Proof.
  unfold wrap_signed. change (64 - 1) with 63.
  pose proof (Z.mod_pos_bound (x + 2 ^ 63) (2 ^ 64) eq_refl).
  change (2 ^ 64) with (2 * 2 ^ 63) in *. lia.
Qed.

Lemma wrap_unsigned_range x : 0 <= wrap_unsigned 64 x < 2 ^ 64.
Proof. unfold wrap_unsigned. apply Z.mod_pos_bound. reflexivity. Qed.

Lemma IntKind_bits_cases k :
  IntKind_bits k = 8 \/ IntKind_bits k = 16 \/ IntKind_bits k = 32 \/ IntKind_bits k = 64.
Proof. destruct k; simpl; try tauto. destruct IntSize_32_or_64 as [-> | ->]; tauto. Qed.

Lemma UintKind_bits_cases k :
  UintKind_bits k = 8 \/ UintKind_bits k = 16 \/ UintKind_bits k = 32 \/ UintKind_bits k = 64.
Proof. destruct k; simpl; try tauto. destruct IntSize_32_or_64 as [-> | ->]; tauto. Qed.

(** For a value of [int64], [OverflowInt] says whether it lies outside the
    range of the field's width. *)
Lemma OverflowInt_spec k old x :
  - 2 ^ 63 <= x < 2 ^ 63 ->
  OverflowInt (IntValue k old) x =
    negb ((- 2 ^ (IntKind_bits k - 1) <=? x) && (x <=? 2 ^ (IntKind_bits k - 1) - 1)).
Proof.
  intros Hx. unfold OverflowInt, wrap_signed. rewrite Z.shiftl_mul_pow2, Z.shiftr_div_pow2.
  - destruct (IntKind_bits_cases k) as [-> | [-> | [-> | ->]]]; f_equal;
      apply eq_true_iff_eq; rewrite Z.eqb_eq, andb_true_iff, !Z.leb_le;
      Z.div_mod_to_equations; lia.
  - destruct (IntKind_bits_cases k) as [-> | [-> | [-> | ->]]]; lia.
  - destruct (IntKind_bits_cases k) as [-> | [-> | [-> | ->]]]; lia.
Qed.

Lemma OverflowUint_spec k old x :
  0 <= x < 2 ^ 64 ->
  OverflowUint (UintValue k old) x = negb (x <=? 2 ^ UintKind_bits k - 1).
Proof.
  intros Hx. unfold OverflowUint, wrap_unsigned. rewrite Z.shiftl_mul_pow2, Z.shiftr_div_pow2.
  - destruct (UintKind_bits_cases k) as [-> | [-> | [-> | ->]]]; f_equal;
      apply eq_true_iff_eq; rewrite Z.eqb_eq, !Z.leb_le;
      Z.div_mod_to_equations; lia.
  - destruct (UintKind_bits_cases k) as [-> | [-> | [-> | ->]]]; lia.
  - destruct (UintKind_bits_cases k) as [-> | [-> | [-> | ->]]]; lia.
Qed.

(** A value in range is stored as it is. *)
Lemma wrap_signed_id w x :
  0 < w -> - 2 ^ (w - 1) <= x <= 2 ^ (w - 1) - 1 -> wrap_signed w x = x.
Proof.
  intros Hw Hx. unfold wrap_signed.
  replace (2 ^ w) with (2 * 2 ^ (w - 1)).
  - rewrite Z.mod_small; lia.
  - rewrite <- Z.pow_succ_r by lia. f_equal. lia.
Qed.

Lemma wrap_unsigned_id w x : 0 <= x <= 2 ^ w - 1 -> wrap_unsigned w x = x.
Proof. intros Hx. unfold wrap_unsigned. apply Z.mod_small. lia. Qed.

Lemma IntKind_bits_pos k : 0 < IntKind_bits k.
Proof. destruct (IntKind_bits_cases k) as [-> | [-> | [-> | ->]]]; lia. Qed.

(** *** strconv *)

Lemma ParseUint_digits_range s : forall n r,
  0 <= n < 2 ^ 64 ->
  strconv.ParseUint_digits 64 s n = (r, None) -> 0 <= r < 2 ^ 64.
Proof.
  induction s as [|c s IH]; intros n r Hn Hp; simpl in Hp.
  - now injection Hp as <-.
  - repeat case_match; try discriminate.
    eapply IH; [|exact Hp]. apply wrap_unsigned_range.
Qed.

Lemma ParseUint_range s n : strconv.ParseUint s 64 = (n, None) -> 0 <= n < 2 ^ 64.
Proof.
  unfold strconv.ParseUint. destruct s as [|c s]; [discriminate|].
  destruct (strconv.ParseUint_digits 64 (String c s) 0) as [r [e|]] eqn:E; [discriminate|].
  intros [= <-]. eapply ParseUint_digits_range; [|exact E]. lia.
Qed.

Lemma ParseInt_range s n :
  strconv.ParseInt s 64 = (n, None) -> - 2 ^ 63 <= n < 2 ^ 63.
Proof.
  unfold strconv.ParseInt. intros Hp.
  repeat case_match; simplify_eq; apply wrap_signed_range.
Qed.

End Integers.

Section Fields.
Context {platform : Platform}.

(** *** One field's turn *)

Lemma absorbField_converted fuel m a f toxicValue :
  converted m f toxicValue ->
  exists opts,
    absorbField fuel m a EmptyString f =
      match absorbValue_loop fuel (sv f) with
      | None => None
      | Some _ => convertString fuel toxicValue (sv f) (CanSet a (sf f)) opts
      end.
Proof.
  intros (name & opts & rest & Hn & Hseen & Hd & Hs & Ha & Hm). exists opts.
  unfold absorbField. rewrite Hn, Hseen, Hd. simpl.
  rewrite !bool_decide_eq_false_2 by assumption. simpl. now rewrite Hm.
Qed.

Lemma converted_exported m f toxicValue :
  converted m f toxicValue -> PkgPath (sf f) = EmptyString.
Proof.
  intros (name & opts & rest & Hn & _). unfold resolveName in Hn.
  destruct (decide (PkgPath (sf f) = EmptyString)) as [|Hne]; [assumption|].
  now rewrite bool_decide_eq_false_2 in Hn.
Qed.

Lemma convertString_not_settable fuel toxicStr v opts :
  Kind v <> reflect.Ptr -> convertString (S fuel) toxicStr v false opts = Some (v, None).
Proof. intros Hk. unfold convertString. now rewrite convertString_loop_not_ptr. Qed.

Lemma convertString_nil fuel toxicStr canSet opts :
  convertString (S fuel) toxicStr (PtrValue true) canSet opts
  = Some (PtrValue true, Some NilPointer).
Proof. reflexivity. Qed.

Lemma convertString_int fuel toxicStr k old opts n :
  strconv.ParseInt toxicStr 64 = (n, None) ->
  convertString (S fuel) toxicStr (IntValue k old) true opts =
    if (- 2 ^ (IntKind_bits k - 1) <=? n) && (n <=? 2 ^ (IntKind_bits k - 1) - 1)
    then Some (IntValue k n, None)
    else Some (IntValue k old, Some (Incompatible toxicStr (IntKind_Kind k))).
Proof.
  intros Hp. pose proof (ParseInt_range _ _ Hp) as Hn.
  unfold convertString. rewrite convertString_loop_not_ptr by (destruct k; discriminate).
  cbn [negb]. replace (Kind (IntValue k old)) with (IntKind_Kind k) by reflexivity.
  destruct k; simpl IntKind_Kind; cbv iota; rewrite Hp, (OverflowInt_spec _ _ _ Hn);
    destruct (_ && _) eqn:E; cbn [negb]; try reflexivity;
    apply andb_true_iff in E as [E1 E2]; apply Z.leb_le in E1, E2;
    unfold SetInt; rewrite wrap_signed_id; try reflexivity; try apply IntKind_bits_pos;
    split; assumption.
Qed.


Lemma convertString_uint fuel toxicStr k old opts n :
  strconv.ParseUint toxicStr 64 = (n, None) ->
  convertString (S fuel) toxicStr (UintValue k old) true opts =
    if n <=? 2 ^ UintKind_bits k - 1
    then Some (UintValue k n, None)
    else Some (UintValue k old, Some (Incompatible toxicStr (UintKind_Kind k))).
Proof.
  intros Hp. pose proof (ParseUint_range _ _ Hp) as Hn.
  unfold convertString. rewrite convertString_loop_not_ptr by (destruct k; discriminate).
  cbn [negb]. replace (Kind (UintValue k old)) with (UintKind_Kind k) by reflexivity.
  destruct k; simpl UintKind_Kind; cbv iota; rewrite Hp, (OverflowUint_spec _ _ _ Hn);
    destruct (_ <=? _) eqn:E; cbn [negb]; try reflexivity;
    apply Z.leb_le in E;
    unfold SetUint; rewrite wrap_unsigned_id; try reflexivity; lia.
Qed.


Lemma Incompatible_text Quote toxicStr k :
  contains (Error Quote (Incompatible toxicStr k)) "incompatible" = true.
Proof.
  change (Error Quote (Incompatible toxicStr k)) with
    ("query:  Query arg value " +:+ Quote toxicStr +:+
     " " +:+ "incompatible" +:+ (" with field value type " +:+ reflect.Kind_String k)).
  do 2 apply contains_skip. apply contains_app.
Qed.


End Fields.

Section Conversion.
Context {platform : Platform}.

(** *** Pointer fields *)

(** A field that comes to conversion holding a nil pointer: its turn ends
    in the error of [convertString], the field as it was. *)
Lemma absorbField_nil_pointer fuel m a f toxicValue :
  sv f = PtrValue true -> converted m f toxicValue ->
  absorbField (S fuel) m a EmptyString f = Some (sv f, Some NilPointer).
Proof.
  intros Hv Hc. destruct (absorbField_converted (S fuel) m a f _ Hc) as [opts ->].
  rewrite Hv. reflexivity.
Qed.

(** A field that comes to conversion holding a pointer that is not nil:
    its turn never ends, whatever the fuel. *)
Lemma absorbField_non_nil_pointer fuel m a f toxicValue :
  sv f = PtrValue false -> converted m f toxicValue ->
  absorbField fuel m a EmptyString f = None.
Proof.
  intros Hv Hc. destruct (absorbField_converted fuel m a f _ Hc) as [opts ->].
  rewrite Hv. now rewrite absorbValue_loop_spins.
Qed.

(** C1 (amended). A field holding a nil pointer that comes to conversion
    (exported, not excluded by its tag, no [seen] option, no [DecodeValues],
    a value supplied under its name): once the fields before it are decoded
    without error, [Decode] leaves the field as it was and returns the
    error "query:  Attempt to Decode() into nil pointer"; the fields after
    it are not looked at. *)
Theorem Decode_nil_pointer_field fuel m val a pre pre' f post toxicValue :
  structOf false val = Some (a, pre ++ f :: post) ->
  absorbValue (S fuel) m a pre EmptyString = Some (pre', None) ->
  sv f = PtrValue true ->
  converted m f toxicValue ->
  Decode (S fuel) m (Some val)
  = Some (Some (withFields val (pre' ++ f :: post)), Some NilPointer).
Proof.
  intros Hs Hpre Hv Hc. rewrite (Decode_at_field _ _ _ _ _ _ _ _ Hs Hpre).
  rewrite (absorbField_nil_pointer _ _ _ _ _ Hv Hc).
  now destruct f.
Qed.

(** C2 (the code does not do what the specification states). [Decode] into a [ptr_1] whose [P]
    points to something, with a value for [P]: the loop of [absorbValue]
    over [sv.Kind() == reflect.Ptr] is still running after any number of
    turns, so the call does not return. *)
Theorem Decode_spins_on_pointer_field (fuel : nat) :
  Decode fuel {[ "P" := ["1"] ]} (Some (PtrTo (Struct (ptr_1 0 false)))) = None.
Proof.
  assert (Hc : converted ({[ "P" := ["1"] ]} : Values)
                 (exported "P" "" (PtrValue false)) "1").
  { exists "P", [], []. repeat split; try discriminate; reflexivity. }
  rewrite (Decode_at_field fuel _ _ true
             [exported "B" "" (IntValue kInt 0)] [exported "B" "" (IntValue kInt 0)]
             (exported "P" "" (PtrValue false)) []); try reflexivity.
  now rewrite (absorbField_non_nil_pointer fuel _ true
                 (exported "P" "" (PtrValue false)) "1" eq_refl Hc).
Qed.

(** *** Integer fields *)

(** C5 (amended). A settable field of one of the kinds [Int] to [Int64]
    and [Uint] to [Uint64] (not [Uintptr]) that comes to conversion
    (exported, not excluded by its tag, no [seen] option, no
    [DecodeValues], the fields before it decoded without error) with a
    string that [ParseInt] (or [ParseUint]) reads as [n]
    in 64 bits. If [n] is outside the range of the field's width, [Decode]
    returns an error whose text contains "incompatible" and the field is
    as it was; if [n] is within the range, its bounds included, the
    field's turn assigns [n] without error and [Decode] goes on. *)
Theorem Decode_integer_field fuel m val pre pre' f post toxicValue :
  structOf false val = Some (true, pre ++ f :: post) ->
  absorbValue (S fuel) m true pre EmptyString = Some (pre', None) ->
  converted m f toxicValue ->
  (forall k old n,
     sv f = IntValue k old ->
     strconv.ParseInt toxicValue 64 = (n, None) ->
     (n < - 2 ^ (IntKind_bits k - 1) \/ 2 ^ (IntKind_bits k - 1) - 1 < n ->
        Decode (S fuel) m (Some val)
        = Some (Some (withFields val (pre' ++ f :: post)),
                Some (Incompatible toxicValue (IntKind_Kind k))) /\
        forall Quote,
          contains (Error Quote (Incompatible toxicValue (IntKind_Kind k)))
            "incompatible" = true) /\
     (- 2 ^ (IntKind_bits k - 1) <= n <= 2 ^ (IntKind_bits k - 1) - 1 ->
        absorbField (S fuel) m true EmptyString f = Some (IntValue k n, None) /\
        Decode (S fuel) m (Some val)
        = absorbRest (S fuel) m true val pre' (mkField (sf f) (IntValue k n)) post)) /\
  (forall k old n,
     sv f = UintValue k old ->
     strconv.ParseUint toxicValue 64 = (n, None) ->
     (2 ^ UintKind_bits k - 1 < n ->
        Decode (S fuel) m (Some val)
        = Some (Some (withFields val (pre' ++ f :: post)),
                Some (Incompatible toxicValue (UintKind_Kind k))) /\
        forall Quote,
          contains (Error Quote (Incompatible toxicValue (UintKind_Kind k)))
            "incompatible" = true) /\
     (n <= 2 ^ UintKind_bits k - 1 ->
        absorbField (S fuel) m true EmptyString f = Some (UintValue k n, None) /\
        Decode (S fuel) m (Some val)
        = absorbRest (S fuel) m true val pre' (mkField (sf f) (UintValue k n)) post)).
Proof.
  intros Hs Hpre Hc.
  pose proof (Decode_at_field _ _ _ _ _ _ _ _ Hs Hpre) as HD.
  destruct (absorbField_converted (S fuel) m true f _ Hc) as [opts Hf].
  assert (Hset : CanSet true (sf f) = true).
  { unfold CanSet. now rewrite (converted_exported _ _ _ Hc). }
  rewrite Hset in Hf.
  split; intros k old n Hv Hp; rewrite Hv in Hf.
  - rewrite absorbValue_loop_not_ptr in Hf by (destruct k; discriminate).
    rewrite (convertString_int _ _ _ _ _ _ Hp) in Hf. split.
    + intros Hout. split; [|intros; apply Incompatible_text].
      rewrite HD, Hf. destruct (_ && _) eqn:E.
      * apply andb_true_iff in E as [E1 E2]; apply Z.leb_le in E1, E2; lia.
      * rewrite <- Hv. now destruct f.
    + intros Hin. rewrite HD, Hf.
      replace (_ && _) with true; [split; reflexivity|].
      symmetry. apply andb_true_iff. split; apply Z.leb_le; lia.
  - rewrite absorbValue_loop_not_ptr in Hf by (destruct k; discriminate).
    rewrite (convertString_uint _ _ _ _ _ _ Hp) in Hf. split.
    + intros Hout. split; [|intros; apply Incompatible_text].
      rewrite HD, Hf. destruct (_ <=? _) eqn:E.
      * apply Z.leb_le in E; lia.
      * rewrite <- Hv. now destruct f.
    + intros Hin. rewrite HD, Hf.
      replace (_ <=? _) with true; [split; reflexivity|].
      symmetry. apply Z.leb_le; lia.
Qed.

(** *** Kinds without a conversion *)


End Conversion.

Section SelfDecodingAndSeen.
Context {platform : Platform}.

(** *** Self-decoding fields *)

(** C3 (amended). A field whose type has [DecodeValues], not passed over
    and without the [seen] option, once the fields before it are decoded
    without error. With a value under its name, the method is called with
    the first value of the sequence (not with the name) and with the
    field; the field then holds what the method left in it, no conversion
    by [convertString] takes place, and an error of the method ends
    [Decode] with that error. With no value under the name the field is
    passed over. *)
Theorem Decode_self_decoding_field fuel m val a pre pre' f post name opts d :
  structOf false val = Some (a, pre ++ f :: post) ->
  absorbValue fuel m a pre EmptyString = Some (pre', None) ->
  resolveName f = Some (name, opts) ->
  Contains opts "seen" = false ->
  DecodeValues (sf f) = Some d ->
  Decode fuel m (Some val) =
    match m !! name with
    | Some (toxicValue :: _) =>
        let '(v, err) := d toxicValue (CanSet a (sf f)) (sv f) in
        let f' := mkField (sf f) (if CanSet a (sf f) then v else sv f) in
        match err with
        | Some msg =>
            Some (Some (withFields val (pre' ++ f' :: post)), Some (DecoderError msg))
        | None => absorbRest fuel m a val pre' f' post
        end
    | _ => absorbRest fuel m a val pre' f post
    end.
Proof.
  intros Hs Hpre Hn Hseen Hd. rewrite (Decode_at_field _ _ _ _ _ _ _ _ Hs Hpre).
  unfold absorbField. rewrite Hn, Hseen, Hd. simpl.
  destruct (m !! name) as [[|toxicValue rest]|]; try (now destruct f).
  destruct (d toxicValue (CanSet a (sf f)) (sv f)) as [v [msg|]]; reflexivity.
Qed.

(** *** The [seen] option *)

Lemma resolveName_nameOf f name opts :
  resolveName f = Some (name, opts) -> name = nameOf f /\ opts = optionsOf f.
Proof.
  unfold resolveName, nameOf, optionsOf.
  destruct (parseTag (Tag_Get (Tag (sf f)) "url")) as [n o]. simpl.
  repeat case_match; intros; simplify_eq; auto.
Qed.

Lemma resolveName_None f :
  resolveName f = None ->
  PkgPath (sf f) <> EmptyString \/ Tag_Get (Tag (sf f)) "url" = "-" \/
  Kind (sv f) = reflect.Struct.
Proof.
  unfold resolveName. intros Hn.
  destruct (decide (PkgPath (sf f) = EmptyString)) as [Hp|Hp]; [|now left].
  destruct (decide (Tag_Get (Tag (sf f)) "url" = "-")) as [Ht|Ht]; [now right; left|].
  rewrite (bool_decide_eq_true_2 _ Hp), (bool_decide_eq_false_2 _ Ht) in Hn.
  right; right. simpl in Hn.
  destruct (parseTag _) as [n o]. repeat case_match; try discriminate.
  match goal with H : _ && _ = true |- _ =>
    apply andb_true_iff in H as [_ H]; now apply bool_decide_eq_true_1 in H end.
Qed.

(** The turn of a field with the [seen] option. *)
Lemma absorbField_seen fuel m a f :
  Contains (optionsOf f) "seen" = true ->
  absorbField fuel m a EmptyString f =
    Some (match sv f with
          | BoolValue b =>
              if CanSet a (sf f)
              then BoolValue (b || bool_decide (is_Some (m !! nameOf f)))
              else sv f
          | _ => sv f
          end, None).
Proof.
  intros Hseen. unfold absorbField.
  destruct (resolveName f) as [[name opts]|] eqn:Hn.
  - destruct (resolveName_nameOf _ _ _ Hn) as [-> ->]. rewrite Hseen.
    destruct (sv f) as [b| | | | | |] eqn:Hv; simpl;
      try (repeat case_match; reflexivity).
    destruct (CanSet a (sf f)); simpl; [|reflexivity].
    destruct (m !! nameOf f) as [l|]; simpl;
      now rewrite ?orb_true_r, ?orb_false_r.
  - destruct (resolveName_None _ Hn) as [Hp | [Ht | Hk]].
    + unfold CanSet. rewrite (bool_decide_eq_false_2 _ Hp), andb_false_r.
      now destruct (sv f).
    + unfold optionsOf in Hseen. rewrite Ht in Hseen. discriminate.
    + destruct (sv f); try reflexivity. discriminate.
Qed.

End SelfDecodingAndSeen.

Section Frame.
Context {platform : Platform}.

(** What [Decode] returns for a target that leads to a record. *)
Lemma Decode_result fuel m val val' err a fs :
  Decode fuel m (Some val) = Some (Some val', err) ->
  structOf false val = Some (a, fs) ->
  exists fs', absorbValue fuel m a fs EmptyString = Some (fs', err) /\
    val' = withFields val fs' /\ structOf false val' = Some (a, fs').
Proof.
  intros HD Hs. rewrite (Decode_structOf _ _ _ _ _ Hs) in HD.
  destruct (absorbValue fuel m a fs EmptyString) as [[fs' e]|]; [|discriminate].
  injection HD as <- <-. exists fs'. repeat split.
  now apply structOf_withFields with fs.
Qed.

(** C4. A field carrying the [seen] option, after a [Decode] that returned
    no error. If it is a settable boolean, it is true iff it was true
    before or its name is a key of the input mapping, whatever the values
    under the key (none of them is parsed). If it is no boolean or cannot
    be set, it is as it was. In both cases its own turn reports no error. *)
Theorem Decode_seen_field fuel m val val' a fs i f :
  Decode fuel m (Some val) = Some (Some val', None) ->
  structOf false val = Some (a, fs) ->
  fs !! i = Some f ->
  Contains (optionsOf f) "seen" = true ->
  let after :=
    match sv f with
    | BoolValue b =>
        if CanSet a (sf f)
        then BoolValue (b || bool_decide (is_Some (m !! nameOf f)))
        else sv f
    | _ => sv f
    end in
  absorbField fuel m a EmptyString f = Some (after, None) /\
  exists fs', structOf false val' = Some (a, fs') /\
    fs' !! i = Some (mkField (sf f) after).
Proof.
  intros HD Hs Hi Hseen after.
  pose proof (absorbField_seen fuel m a f Hseen) as Hf. split; [exact Hf|].
  destruct (Decode_result _ _ _ _ _ _ _ HD Hs) as (fs' & Habs & _ & Hs').
  exists fs'. split; [exact Hs'|].
  destruct (absorbValue_ok_lookup _ _ _ _ _ _ _ Habs Hi) as (v & Hv & Hf').
  rewrite Hf in Hf'. injection Hf' as <-. exact Hv.
Qed.

(** *** Fields without a value *)

Lemma absorbField_no_value fuel m a f name opts :
  resolveName f = Some (name, opts) ->
  m !! name = None \/ (m !! name = Some [] /\ Contains opts "seen" = false) ->
  absorbField fuel m a EmptyString f = Some (sv f, None).
Proof.
  intros Hn Hm. unfold absorbField. rewrite Hn. simpl.
  destruct Hm as [-> | [-> ->]]; repeat case_match; reflexivity.
Qed.


(** *** Only the first value counts *)

Lemma absorbField_sameFirst fuel m1 m2 a scope f :
  (forall k, sameFirst (m1 !! k) (m2 !! k)) ->
  absorbField fuel m1 a scope f = absorbField fuel m2 a scope f.
Proof.
  intros Hm. unfold absorbField.
  destruct (resolveName f) as [[name opts]|]; [|reflexivity].
  set (name' := if bool_decide (scope = EmptyString) then name
                else scope +:+ "[" +:+ name +:+ "]").
  pose proof (Hm name) as H1. pose proof (Hm name') as H2.
  unfold sameFirst in H1, H2.
  destruct (m1 !! name) as [l1|], (m2 !! name) as [l2|]; try contradiction;
  destruct (m1 !! name') as [[|x1 l1']|], (m2 !! name') as [[|x2 l2']|];
    try contradiction; try discriminate; simplify_eq; reflexivity.
Qed.

Lemma absorbValue_sameFirst fuel m1 m2 a scope fs :
  (forall k, sameFirst (m1 !! k) (m2 !! k)) ->
  absorbValue fuel m1 a fs scope = absorbValue fuel m2 a fs scope.
Proof.
  intros Hm. induction fs as [|f fs IH]; [reflexivity|].
  simpl. now rewrite (absorbField_sameFirst _ _ _ _ _ _ Hm), IH.
Qed.

(** C9. Two input mappings with the same keys and, under every key,
    sequences that are both empty or start with the same value: [Decode]
    gives the same result on the same target, the same error and the same
    record afterwards (or runs on with both). *)
Theorem Decode_first_value_only fuel m1 m2 v :
  (forall k, sameFirst (m1 !! k) (m2 !! k)) ->
  Decode fuel m1 v = Decode fuel m2 v.
Proof.
  intros Hm. destruct v as [val|]; [|reflexivity]. unfold Decode.
  assert (H : forall a, Decode_val fuel m1 a val = Decode_val fuel m2 a val).
  { induction val as [|elem IH|fields|k]; intros a; simpl; try reflexivity.
    - now rewrite IH.
    - now rewrite (absorbValue_sameFirst _ _ _ _ _ _ Hm). }
  now rewrite H.
Qed.

(** The premise of C9 for two concrete mappings, by computation. *)
Lemma sameFirst_heads (m1 m2 : Values) :
  (head <$> m1 : gmap string (option string)) = head <$> m2 ->
  forall k, sameFirst (m1 !! k) (m2 !! k).
Proof.
  intros Hh k. assert (H : (head <$> m1) !! k = (head <$> m2) !! k) by now rewrite Hh.
  rewrite !lookup_fmap in H. unfold sameFirst.
  destruct (m1 !! k), (m2 !! k); simpl in H; try discriminate; [|exact I].
  now injection H.
Qed.

End Frame.

Section Targets.
Context {platform : Platform}.

(** *** The errors a field's turn can end in *)

Lemma convertString_loop_error fuel v e :
  convertString_loop fuel v = Some (Some e) -> e = NilPointer.
Proof.
  induction fuel as [|fuel IH]; simpl; [discriminate|].
  repeat case_match; intros; simplify_eq; auto.
Qed.

(** No turn ends in the error of [Decode] itself. *)
Lemma absorbField_not_ExpectsStruct fuel m a scope f v k :
  absorbField fuel m a scope f <> Some (v, Some (ExpectsStruct k)).
Proof.
  unfold absorbField, convertString. intros H.
  repeat (case_match; simplify_eq; try discriminate);
    try match goal with
        | H : convertString_loop _ _ = Some (Some _) |- _ =>
            apply convertString_loop_error in H; discriminate
        | H : DecoderError <$> ?o = Some _ |- _ => destruct o; discriminate
        end.
Qed.

Lemma absorbValue_not_ExpectsStruct fuel m a scope fs fs' k :
  absorbValue fuel m a fs scope <> Some (fs', Some (ExpectsStruct k)).
Proof.
  revert fs'. induction fs as [|f fs IH]; intros fs' H; simpl in H; [discriminate|].
  destruct (absorbField fuel m a scope f) as [[v [e|]]|] eqn:Ef; try discriminate.
  - injection H as <- ->. now apply absorbField_not_ExpectsStruct in Ef.
  - destruct (absorbValue fuel m a fs scope) as [[r e]|] eqn:E; try discriminate.
    injection H as <- ->. now apply (IH r).
Qed.

(** *** The target *)

Lemma Decode_val_endOf fuel m a val :
  match endOf val with
  | NilPtr => Decode_val fuel m a val = Some (val, None)
  | Other k => Decode_val fuel m a val = Some (val, Some (ExpectsStruct k))
  | _ => forall val' k, Decode_val fuel m a val <> Some (val', Some (ExpectsStruct k))
  end.
Proof.
  revert a. induction val as [|elem IH|fields|k]; intros a; simpl; try reflexivity.
  - specialize (IH true). destruct (endOf elem); try (now rewrite IH).
    + intros val' k H. destruct (Decode_val fuel m true elem) as [[e' err]|] eqn:E;
        [|discriminate].
      injection H as <- ->. now apply (IH e' k).
    + intros val' k H. destruct (Decode_val fuel m true elem) as [[e' err]|] eqn:E;
        [|discriminate].
      injection H as <- ->. now apply (IH e' k).
  - intros val' k H.
    destruct (absorbValue fuel m a fields EmptyString) as [[r e]|] eqn:E; [|discriminate].
    injection H as <- ->. now apply absorbValue_not_ExpectsStruct in E.
Qed.

Lemma ExpectsStruct_text Quote k :
  contains (Error Quote (ExpectsStruct k)) (reflect.Kind_String k) = true.
Proof. apply contains_suffix. Qed.

(** C7. [Decode] of the nil interface, or of a pointer that is nil or
    leads to a nil pointer, returns no error and changes nothing. [Decode]
    returns the error "query:  Decode() expects struct input.  Got <kind>"
    iff what the target leads to, pointers followed, is a value that is
    neither a nil pointer nor a struct; the error names its kind, and the
    target is unchanged. *)
Theorem Decode_target fuel m :
  Decode fuel m None = Some (None, None) /\
  forall val,
    (endOf val = NilPtr -> Decode fuel m (Some val) = Some (Some val, None)) /\
    (forall k,
       (exists v', Decode fuel m (Some val) = Some (v', Some (ExpectsStruct k)))
       <-> endOf val = Other k) /\
    (forall k,
       endOf val = Other k ->
       Decode fuel m (Some val) = Some (Some val, Some (ExpectsStruct k)) /\
       forall Quote,
         contains (Error Quote (ExpectsStruct k)) (reflect.Kind_String k) = true).
Proof.
  split; [reflexivity|]. intros val.
  pose proof (Decode_val_endOf fuel m false val) as H. unfold Decode.
  split; [|split].
  - intros He. rewrite He in H. now rewrite H.
  - intros k. split.
    + intros [v' HD]. destruct (endOf val) as [|elem|fields|k'] eqn:He.
      * rewrite H in HD. discriminate.
      * destruct (Decode_val fuel m false val) as [[val' err]|] eqn:E; [|discriminate].
        injection HD as <- ->. exfalso. now apply (H val' k).
      * destruct (Decode_val fuel m false val) as [[val' err]|] eqn:E; [|discriminate].
        injection HD as <- ->. exfalso. now apply (H val' k).
      * rewrite H in HD. now simplify_eq.
    + intros He. rewrite He in H. rewrite H. eauto.
  - intros k He. rewrite He in H. rewrite H.
    split; [reflexivity | intros; apply ExpectsStruct_text].
Qed.

(** *** A struct passed by value *)

Lemma absorbField_by_value fuel m f v e :
  DecodeValues (sf f) = None ->
  absorbField fuel m false EmptyString f = Some (v, e) ->
  v = sv f /\ (e = None \/ e = Some NilPointer).
Proof.
  intros Hd. unfold absorbField, CanSet. cbn [andb]. rewrite Hd.
  destruct (resolveName f) as [[name opts]|]; [|intros; simplify_eq; auto].
  destruct (Contains opts "seen").
  { rewrite orb_true_r. intros; simplify_eq; auto. }
  rewrite (bool_decide_eq_true_2 (EmptyString = EmptyString) eq_refl).
  destruct (_ || _); [intros; simplify_eq; auto|].
  destruct (m !! name) as [[|s rest]|]; try solve [intros; simplify_eq; auto].
  destruct (absorbValue_loop fuel (sv f)); [|discriminate].
  unfold convertString.
  destruct (convertString_loop fuel (sv f)) as [[e'|]|] eqn:El; try discriminate.
  - apply convertString_loop_error in El as ->. intros; simplify_eq; auto.
  - simpl. intros; simplify_eq; auto.
Qed.

Lemma absorbValue_by_value fuel m fs fs' e :
  (forall f, f ∈ fs -> DecodeValues (sf f) = None) ->
  absorbValue fuel m false fs EmptyString = Some (fs', e) ->
  fs' = fs /\ (e = None \/ e = Some NilPointer).
Proof.
  revert fs'. induction fs as [|f fs IH]; intros fs' Hd H; simpl in H.
  - injection H as <- <-. auto.
  - assert (Hf : DecodeValues (sf f) = None) by (apply Hd; left).
    destruct (absorbField fuel m false EmptyString f) as [[v [err|]]|] eqn:Ef;
      try discriminate; apply (absorbField_by_value _ _ _ _ _ Hf) in Ef as [-> He].
    + injection H as <- <-. split; [now destruct f | exact He].
    + destruct (absorbValue fuel m false fs EmptyString) as [[r err]|] eqn:E;
        [|discriminate].
      injection H as <- <-.
      destruct (IH r (fun g Hg => Hd g (list_elem_of_further _ _ _ Hg)) eq_refl)
        as [-> He'].
      split; [now destruct f | exact He'].
Qed.

Lemma absorbField_harmless fuel m f :
  harmless m f -> absorbField (S fuel) m false EmptyString f = Some (sv f, None).
Proof.
  intros [Hptr Hdec]. unfold absorbField, CanSet. cbn [andb].
  destruct (resolveName f) as [[name opts]|] eqn:Hn; [|reflexivity].
  destruct (Contains opts "seen") eqn:Hseen.
  { now rewrite orb_true_r. }
  cbn [bool_decide decide_rel]. rewrite bool_decide_eq_true_2 by reflexivity.
  destruct (DecodeValues (sf f)) as [d|] eqn:Hd.
  - destruct (m !! name) as [[|toxicValue rest]|]; try reflexivity.
    specialize (Hdec d toxicValue eq_refl).
    destruct (d toxicValue false (sv f)) as [v' err]. simpl in Hdec. now subst.
  - destruct (bool_decide (Kind (sv f) = reflect.Slice) ||
              bool_decide (Kind (sv f) = reflect.Array)) eqn:Hk; [reflexivity|].
    destruct (m !! name) as [[|toxicValue rest]|] eqn:Hm; try reflexivity.
    assert (Hc : converted m f toxicValue).
    { apply orb_false_iff in Hk as [Hk1 Hk2].
      apply bool_decide_eq_false_1 in Hk1, Hk2.
      exists name, opts, rest. auto 10. }
    assert (Hnp : Kind (sv f) <> reflect.Ptr) by (intros Hp; exact (Hptr Hp _ Hc)).
    rewrite absorbValue_loop_not_ptr by exact Hnp.
    now apply convertString_not_settable.
Qed.

(** C10 (amended). [Decode] called with a struct itself, not a pointer to
    it, none of whose field types has a [DecodeValues]. Whenever it
    returns, the struct is as it was and the error is nil or the error of
    a nil pointer field: never an error of overflow, of an unsupported
    kind or of parsing. When moreover no pointer field comes to
    conversion, it returns, and returns nil. *)
Theorem Decode_struct_by_value fuel m fs :
  (forall f, f ∈ fs -> DecodeValues (sf f) = None) ->
  (forall v' err,
     Decode fuel m (Some (Struct fs)) = Some (v', err) ->
     v' = Some (Struct fs) /\ (err = None \/ err = Some NilPointer)) /\
  ((forall f toxicValue,
      f ∈ fs -> Kind (sv f) = reflect.Ptr -> ~ converted m f toxicValue) ->
   Decode (S fuel) m (Some (Struct fs)) = Some (Some (Struct fs), None)).
Proof.
  intros Hd. split.
  - intros v' err H. unfold Decode, Decode_val in H.
    destruct (absorbValue fuel m false fs EmptyString) as [[fs' e]|] eqn:E; [|discriminate].
    injection H as <- <-. now apply (absorbValue_by_value _ _ _ _ _ Hd) in E as [-> He].
  - intros Hptr. unfold Decode, Decode_val.
    assert (Hall : forall f, f ∈ fs -> harmless m f).
    { intros f Hf. split.
      - intros Hk toxicValue. now apply Hptr.
      - intros d toxicValue Hsome. rewrite (Hd f Hf) in Hsome. discriminate. }
    assert (H : absorbValue (S fuel) m false fs EmptyString = Some (fs, None)).
    { clear Hd Hptr. induction fs as [|f fs IH]; [reflexivity|].
      cbn [absorbValue]. rewrite absorbField_harmless by (apply Hall; left).
      rewrite IH by (intros g Hg; apply Hall; now right). now destruct f. }
    now rewrite H.
Qed.

End Targets.

Section Termination.
Context {platform : Platform}.

(** *** When the call returns *)

Lemma convertString_fuel fuel toxicStr v canSet opts :
  convertString (S fuel) toxicStr v canSet opts = convertString 1 toxicStr v canSet opts.
Proof. unfold convertString. now rewrite convertString_loop_fuel. Qed.

Lemma absorbField_fuel fuel m a scope f :
  absorbField (S fuel) m a scope f = absorbField 1 m a scope f.
Proof.
  unfold absorbField. rewrite absorbValue_loop_fuel.
  repeat case_match; try reflexivity; apply convertString_fuel.
Qed.

Lemma absorbValue_fuel fuel m a fs scope :
  absorbValue (S fuel) m a fs scope = absorbValue 1 m a fs scope.
Proof.
  induction fs as [|f fs IH]; [reflexivity|].
  cbn [absorbValue]. now rewrite absorbField_fuel, IH.
Qed.

(** One turn of each pointer loop decides the call: with more fuel
    [Decode] gives what it gives with one turn. *)
Theorem Decode_fuel fuel m v : Decode (S fuel) m v = Decode 1 m v.
Proof.
  destruct v as [val|]; [|reflexivity]. unfold Decode.
  assert (H : forall a, Decode_val (S fuel) m a val = Decode_val 1 m a val).
  { induction val as [|elem IH|fields|k]; intros a; cbn [Decode_val]; try reflexivity.
    - now rewrite IH.
    - now rewrite absorbValue_fuel. }
  now rewrite H.
Qed.

Lemma absorbField_returns fuel m a scope f :
  sv f <> PtrValue false -> exists r, absorbField (S fuel) m a scope f = Some r.
Proof.
  intros Hv. unfold absorbField.
  assert (Hl : absorbValue_loop (S fuel) (sv f) = Some tt).
  { destruct (sv f) as [|k ?|k ?|k ?| |[|]|k];
      try (apply absorbValue_loop_not_ptr; destruct k; discriminate);
      try reflexivity; congruence. }
  assert (Hc : forall s c o, exists r, convertString (S fuel) s (sv f) c o = Some r).
  { intros s c o. unfold convertString.
    destruct (sv f) as [|k ?|k ?|k ?| |[|]|k]; try congruence;
      try (rewrite convertString_loop_not_ptr by (try destruct k; discriminate));
      try rewrite convertString_loop_nil;
      repeat case_match; eauto. }
  rewrite Hl. repeat case_match; eauto.
Qed.

Lemma absorbValue_returns fuel m a scope fs :
  (forall f, f ∈ fs -> sv f <> PtrValue false) ->
  exists r, absorbValue (S fuel) m a fs scope = Some r.
Proof.
  induction fs as [|f fs IH]; intros Hall; [simpl; eauto|].
  cbn [absorbValue].
  destruct (absorbField_returns fuel m a scope f) as [[v [e|]] ->];
    [apply Hall; left | eauto |].
  destruct IH as [[r e] ->]; [intros g Hg; apply Hall; now right | eauto].
Qed.

Lemma Decode_val_returns fuel m val : forall a,
  (forall a' fs f, structOf a val = Some (a', fs) -> f ∈ fs -> sv f <> PtrValue false) ->
  exists r, Decode_val (S fuel) m a val = Some r.
Proof.
  induction val as [|elem IH|fields|k]; intros a Hf; cbn [Decode_val]; eauto.
  - destruct (IH true) as [[e' err] ->]; [exact Hf | eauto].
  - destruct (absorbValue_returns fuel m a EmptyString fields) as [[r e] ->]; eauto.
Qed.

(** [Decode] returns for every mapping and every target (a struct, or a
    chain of pointers that ends) whose record has no field holding a
    pointer that is not nil and no field type with a [DecodeValues], and
    for every such target that leads to no record. A method that does not
    return and a pointer that leads back to itself are outside the model,
    and outside this statement. *)
Theorem Decode_returns fuel m val :
  (forall a fs f,
     structOf false val = Some (a, fs) -> f ∈ fs ->
     sv f <> PtrValue false /\ DecodeValues (sf f) = None) ->
  exists r, Decode (S fuel) m (Some val) = Some r.
Proof.
  intros Hall'.
  assert (Hall : forall a fs f,
            structOf false val = Some (a, fs) -> f ∈ fs -> sv f <> PtrValue false)
    by (intros a fs f Hs Hf; exact (proj1 (Hall' a fs f Hs Hf))).
  unfold Decode.
  destruct (Decode_val_returns fuel m val false Hall) as [[val' err] ->]; eauto.
Qed.

End Termination.

Section Mapping.
Context {platform : Platform}.

(** *** What of the mapping is read *)

Lemma withFields_structOf a a' val fs :
  structOf a val = Some (a', fs) -> withFields val fs = val.
Proof.
  revert a. induction val as [|elem IH|fields|k]; intros a Hs; simpl in *; try discriminate.
  - f_equal. eauto.
  - now injection Hs as <- <-.
Qed.

(** A field's turn reads the mapping under the field's name only. *)
Lemma absorbField_reads_name fuel m1 m2 a f :
  m1 !! nameOf f = m2 !! nameOf f ->
  absorbField fuel m1 a EmptyString f = absorbField fuel m2 a EmptyString f.
Proof.
  intros Hm. unfold absorbField.
  destruct (resolveName f) as [[name opts]|] eqn:Hn; [|reflexivity].
  destruct (resolveName_nameOf _ _ _ Hn) as [-> ->].
  rewrite (bool_decide_eq_true_2 (EmptyString = EmptyString) eq_refl). now rewrite Hm.
Qed.

Lemma absorbValue_reads_names fuel m1 m2 a fs :
  (forall f, f ∈ fs -> m1 !! nameOf f = m2 !! nameOf f) ->
  absorbValue fuel m1 a fs EmptyString = absorbValue fuel m2 a fs EmptyString.
Proof.
  induction fs as [|f fs IH]; intros Hm; [reflexivity|].
  cbn [absorbValue]. rewrite (absorbField_reads_name fuel m1 m2) by (apply Hm; left).
  now rewrite IH by (intros g Hg; apply Hm; now right).
Qed.

(** Keys that are no field's name do not count: two mappings that hold
    the same under the name of every field of the record give the same
    result, whatever else they hold. *)
Theorem Decode_reads_field_names fuel m1 m2 val a fs :
  structOf false val = Some (a, fs) ->
  (forall f, f ∈ fs -> m1 !! nameOf f = m2 !! nameOf f) ->
  Decode fuel m1 (Some val) = Decode fuel m2 (Some val).
Proof.
  intros Hs Hm. rewrite !(Decode_structOf _ _ _ _ _ Hs).
  now rewrite (absorbValue_reads_names fuel m1 m2).
Qed.

Lemma absorbValue_no_value fuel m a fs :
  (forall f, f ∈ fs -> m !! nameOf f = None) ->
  absorbValue fuel m a fs EmptyString = Some (fs, None).
Proof.
  induction fs as [|f fs IH]; intros Hm; [reflexivity|].
  cbn [absorbValue].
  assert (Hf : absorbField fuel m a EmptyString f = Some (sv f, None)).
  { destruct (resolveName f) as [[name opts]|] eqn:Hn.
    - apply (absorbField_no_value fuel m a f name opts Hn). left.
      destruct (resolveName_nameOf _ _ _ Hn) as [-> _]. apply Hm. now left.
    - unfold absorbField. now rewrite Hn. }
  rewrite Hf, IH by (intros g Hg; apply Hm; now right). now destruct f.
Qed.

(** A mapping that has no key for any field of the record, the empty
    mapping among them: [Decode] returns nil and the target is as it was,
    with any fuel, pointer fields and self-decoding fields included. *)
Theorem Decode_no_field_name fuel m val a fs :
  structOf false val = Some (a, fs) ->
  (forall f, f ∈ fs -> m !! nameOf f = None) ->
  Decode fuel m (Some val) = Some (Some val, None).
Proof.
  intros Hs Hm. rewrite (Decode_structOf _ _ _ _ _ Hs).
  rewrite (absorbValue_no_value fuel m a fs Hm).
  now rewrite (withFields_structOf _ _ _ _ Hs).
Qed.

End Mapping.

Section Errors.
Context {platform : Platform}.

(** *** Where an error comes from *)

(** [convertString] assigns only when it returns nil. *)
Lemma convertString_error_unchanged fuel toxicStr v canSet opts v' e :
  convertString fuel toxicStr v canSet opts = Some (v', Some e) -> v' = v.
Proof.
  unfold convertString. intros H. repeat case_match; simplify_eq; reflexivity.
Qed.

Lemma absorbField_error_unchanged fuel m a scope f v e :
  DecodeValues (sf f) = None ->
  absorbField fuel m a scope f = Some (v, Some e) -> v = sv f.
Proof.
  intros Hd. unfold absorbField. rewrite Hd. intros H.
  repeat case_match; simplify_eq; try reflexivity;
    try (eapply convertString_error_unchanged; eassumption).
Qed.

Lemma absorbValue_error fuel m a fs fs' e :
  absorbValue fuel m a fs EmptyString = Some (fs', Some e) ->
  exists pre f post pre' v,
    fs = pre ++ f :: post /\
    absorbValue fuel m a pre EmptyString = Some (pre', None) /\
    absorbField fuel m a EmptyString f = Some (v, Some e) /\
    fs' = pre' ++ mkField (sf f) v :: post.
Proof.
  revert fs'. induction fs as [|g fs IH]; intros fs' H; simpl in H; [discriminate|].
  destruct (absorbField fuel m a EmptyString g) as [[v [err|]]|] eqn:Eg; try discriminate.
  - injection H as <- <-. exists [], g, fs, [], v. auto.
  - destruct (absorbValue fuel m a fs EmptyString) as [[r err]|] eqn:E; [|discriminate].
    injection H as <- ->.
    destruct (IH r eq_refl) as (pre & f & post & pre' & w & -> & Hpre & Hf & ->).
    exists (g :: pre), f, post, (mkField (sf g) v :: pre'), w.
    repeat split; try assumption. simpl. now rewrite Eg, Hpre.
Qed.

(** [Decode] stops at the first error and takes nothing back: when it
    returns an error there is a field whose turn gave that error; the
    fields before it have all been decoded, without error; the fields
    after it are as they were; and the field itself is as it was unless
    its type has a [DecodeValues]. *)
Theorem Decode_stops_at_first_error fuel m val val' a fs e :
  structOf false val = Some (a, fs) ->
  Decode fuel m (Some val) = Some (Some val', Some e) ->
  exists pre f post pre' v,
    fs = pre ++ f :: post /\
    absorbValue fuel m a pre EmptyString = Some (pre', None) /\
    absorbField fuel m a EmptyString f = Some (v, Some e) /\
    val' = withFields val (pre' ++ mkField (sf f) v :: post) /\
    (DecodeValues (sf f) = None -> v = sv f).
Proof.
  intros Hs HD. destruct (Decode_result _ _ _ _ _ _ _ HD Hs) as (fs' & Habs & -> & _).
  destruct (absorbValue_error _ _ _ _ _ _ Habs)
    as (pre & f & post & pre' & v & -> & Hpre & Hf & ->).
  exists pre, f, post, pre', v. repeat split; try assumption.
  intros Hd. eapply absorbField_error_unchanged; eassumption.
Qed.

Lemma convertString_loop_error_nil fuel v e :
  convertString_loop fuel v = Some (Some e) -> v = PtrValue true.
Proof.
  induction fuel as [|fuel IH]; [discriminate|]. simpl.
  destruct v as [|k ?|k ?|k ?| |[|]|k]; try (destruct k); simpl;
    try discriminate; auto.
Qed.

Lemma convertString_loop_left fuel v :
  convertString_loop fuel v = Some None -> Kind v <> reflect.Ptr.
Proof.
  induction fuel as [|fuel IH]; [discriminate|]. simpl.
  destruct v as [|k ?|k ?|k ?| |[|]|k]; try (destruct k); simpl;
    try discriminate; auto.
Qed.

(** The error of one field's turn tells of the field: its kind, its value
    or the string it was given. *)
Lemma absorbField_error_kinds fuel m a f v e :
  absorbField fuel m a EmptyString f = Some (v, Some e) ->
  match e with
  | ExpectsStruct _ => False
  | NilPointer => sv f = PtrValue true
  | Incompatible toxicStr k =>
      Kind (sv f) = k /\
      (exists rest, m !! nameOf f = Some (toxicStr :: rest)) /\
      ((exists ik old, sv f = IntValue ik old) \/
       (exists uk old, sv f = UintValue uk old) \/
       (exists old, sv f = FloatValue kFloat32 old))
  | Unsupported k =>
      exists ok, sv f = OtherValue ok /\ k = OtherKind_Kind ok /\
                 ok <> kSlice /\ ok <> kArray
  | ParseError _ =>
      exists toxicStr rest, m !! nameOf f = Some (toxicStr :: rest)
  | DecoderError _ => DecodeValues (sf f) <> None
  end.
Proof.
  unfold absorbField.
  destruct (resolveName f) as [[name opts]|] eqn:Hn; [|discriminate].
  destruct (resolveName_nameOf _ _ _ Hn) as [-> ->].
  destruct (Contains (optionsOf f) "seen").
  { repeat case_match; discriminate. }
  rewrite (bool_decide_eq_true_2 (EmptyString = EmptyString) eq_refl).
  destruct (DecodeValues (sf f)) as [d|] eqn:Hd.
  { destruct (m !! nameOf f) as [[|toxicValue rest]|]; try discriminate.
    destruct (d toxicValue (CanSet a (sf f)) (sv f)) as [v' [msg|]]; [|discriminate].
    intros [= <- <-]. discriminate. }
  destruct (bool_decide (Kind (sv f) = reflect.Slice) ||
            bool_decide (Kind (sv f) = reflect.Array)) eqn:Hk; [discriminate|].
  apply orb_false_iff in Hk as [Hk1 Hk2]. apply bool_decide_eq_false_1 in Hk1, Hk2.
  destruct (m !! nameOf f) as [[|toxicValue rest]|]; try discriminate.
  destruct (absorbValue_loop fuel (sv f)); [|discriminate].
  unfold convertString.
  destruct (convertString_loop fuel (sv f)) as [[err|]|] eqn:El; [| |discriminate].
  { pose proof (convertString_loop_error _ _ _ El) as ->. intros [= <- <-].
    exact (convertString_loop_error_nil _ _ _ El). }
  apply convertString_loop_left in El.
  destruct (negb (CanSet a (sf f))); [discriminate|].
  destruct (sv f) as [b|ik n|uk n|fk x|s|p|ok] eqn:Hv; cbn [Kind].
  - repeat case_match; intros; simplify_eq; eauto.
  - destruct ik; cbn [IntKind_Kind]; cbv iota; repeat case_match; intros; simplify_eq;
      eauto 10.
  - destruct uk; cbn [UintKind_Kind]; cbv iota; repeat case_match; intros; simplify_eq;
      eauto 10.
  - destruct fk; cbn [FloatKind_Kind OverflowFloat]; cbv iota; repeat case_match; intros;
      simplify_eq; eauto 10.
  - discriminate.
  - now exfalso.
  - destruct ok; cbn [OtherKind_Kind]; cbv iota; intros; simplify_eq;
      try (exfalso; apply Hk1; reflexivity); try (exfalso; apply Hk2; reflexivity);
      eexists; repeat split; discriminate.
Qed.

(** Where an error of [Decode] comes from, for a record none of whose
    field types has a [DecodeValues] (so that every error is made by
    [Decode] itself or by [strconv]). It is never the error of line 68, of
    a target that is no struct, and never another than the following. The
    nil pointer error of line 210 means a field holds a nil pointer. The
    error of lines 242, 251 and 260 ("incompatible") is made for an
    integer or [float32] field only, never for a [float64], boolean or
    string field, and carries the kind of that field and the first value
    under its name. The error of line 275 ("Unsupported") is made only for
    a field that is none of the converted kinds and no slice, array or
    pointer, and carries its kind. An error of [strconv] means a value was
    supplied under a field's name. *)
Theorem Decode_error_tells fuel m val val' a fs e :
  structOf false val = Some (a, fs) ->
  (forall f, f ∈ fs -> DecodeValues (sf f) = None) ->
  Decode fuel m (Some val) = Some (Some val', Some e) ->
  exists f, f ∈ fs /\
    match e with
    | ExpectsStruct _ => False
    | NilPointer => sv f = PtrValue true
    | Incompatible toxicStr k =>
        Kind (sv f) = k /\
        (exists rest, m !! nameOf f = Some (toxicStr :: rest)) /\
        ((exists ik old, sv f = IntValue ik old) \/
         (exists uk old, sv f = UintValue uk old) \/
         (exists old, sv f = FloatValue kFloat32 old))
    | Unsupported k =>
        exists ok, sv f = OtherValue ok /\ k = OtherKind_Kind ok /\
                   ok <> kSlice /\ ok <> kArray
    | ParseError _ =>
        exists toxicStr rest, m !! nameOf f = Some (toxicStr :: rest)
    | DecoderError _ => False
    end.
Proof.
  intros Hs Hd HD. destruct (Decode_result _ _ _ _ _ _ _ HD Hs) as (fs' & Habs & _).
  destruct (absorbValue_error _ _ _ _ _ _ Habs)
    as (pre & f & post & pre' & v & -> & _ & Hf & _).
  assert (Hin : f ∈ pre ++ f :: post) by (apply elem_of_app; right; left).
  exists f. split; [exact Hin|].
  pose proof (absorbField_error_kinds _ _ _ _ _ _ Hf) as Hk.
  destruct e; try exact Hk. exact (Hk (Hd f Hin)).
Qed.

End Errors.

Section Again.
Context {platform : Platform}.

(** *** Decoding twice *)

(** What [convertString] leaves in a field it leaves again, with the same
    answer, when run on the result; the kind stays, and a pointer stays as
    it is. *)
Lemma convertString_again fuel toxicStr v canSet opts v' e :
  convertString fuel toxicStr v canSet opts = Some (v', e) ->
  convertString fuel toxicStr v' canSet opts = Some (v', e) /\
  (v' = v \/ (Kind v <> reflect.Ptr /\ Kind v' = Kind v)).
Proof.
  unfold convertString.
  destruct (convertString_loop fuel v) as [[err|]|] eqn:El; try discriminate.
  { intros [= <- <-]. rewrite El. auto. }
  pose proof (convertString_loop_left _ _ El) as Hnp.
  destruct canSet; cbn [negb]; [|intros [= <- <-]; rewrite El; auto].
  destruct fuel as [|fuel]; [discriminate|].
  destruct v as [b|ik n|uk n|fk x|s|p|ok]; cbn [Kind] in *.
  - destruct (strconv.ParseBool toxicStr) as [b' [err|]] eqn:Hp; intros [= <- <-];
      rewrite convertString_loop_not_ptr by discriminate;
      cbn [negb Kind SetBool]; cbv iota; rewrite ?Hp; auto.
  - destruct ik; cbn [IntKind_Kind]; cbv iota;
      (destruct (strconv.ParseInt toxicStr 64) as [n' [err|]] eqn:Hp;
       [|destruct (OverflowInt _ n') eqn:Ho]; intros [= <- <-];
       rewrite convertString_loop_not_ptr by discriminate;
       cbn [negb Kind SetInt IntKind_Kind]; cbv iota; rewrite ?Hp;
       try (change (OverflowInt (IntValue ?k _) n') with (OverflowInt (IntValue k n) n'));
       rewrite ?Ho; auto).
  - destruct uk; cbn [UintKind_Kind]; cbv iota;
      (destruct (strconv.ParseUint toxicStr 64) as [n' [err|]] eqn:Hp;
       [|destruct (OverflowUint _ n') eqn:Ho]; intros [= <- <-];
       rewrite convertString_loop_not_ptr by discriminate;
       cbn [negb Kind SetUint UintKind_Kind]; cbv iota; rewrite ?Hp;
       try (change (OverflowUint (UintValue ?k _) n') with (OverflowUint (UintValue k n) n'));
       rewrite ?Ho; auto).
  - destruct fk; cbn [FloatKind_Kind]; cbv iota;
      (destruct (ParseFloat toxicStr) as [x'|err] eqn:Hp;
       [destruct (OverflowFloat _ x') eqn:Ho|]; intros [= <- <-];
       rewrite convertString_loop_not_ptr by discriminate;
       cbn [negb Kind SetFloat FloatKind_Kind]; cbv iota; rewrite ?Hp;
       try (change (OverflowFloat (FloatValue ?k _) x') with (OverflowFloat (FloatValue k x) x'));
       rewrite ?Ho; auto).
  - intros [= <- <-]. simpl. auto.
  - now exfalso.
  - destruct ok; cbn [OtherKind_Kind]; cbv iota; intros [= <- <-]; simpl; auto.
Qed.

Lemma resolveName_kind f v :
  Kind v = Kind (sv f) -> resolveName (mkField (sf f) v) = resolveName f.
Proof. intros Hk. unfold resolveName. cbn [sf sv]. now rewrite Hk. Qed.

(** The turn of a field whose type has no [DecodeValues], run again on
    what it left, leaves the same and answers the same. *)
Lemma absorbField_again fuel m a f v e :
  DecodeValues (sf f) = None ->
  absorbField fuel m a EmptyString f = Some (v, e) ->
  absorbField fuel m a EmptyString (mkField (sf f) v) = Some (v, e).
Proof.
  intros Hd. unfold absorbField at 1.
  destruct (resolveName f) as [[name opts]|] eqn:Hn.
  2:{ intros [= <- <-]. replace (mkField (sf f) (sv f)) with f by now destruct f.
      unfold absorbField. now rewrite Hn. }
  destruct (Contains opts "seen") eqn:Hseen.
  { destruct (negb (bool_decide (Kind (sv f) = reflect.Bool)) ||
              negb (CanSet a (sf f))) eqn:Hb.
    - intros [= <- <-]. replace (mkField (sf f) (sv f)) with f by now destruct f.
      unfold absorbField. now rewrite Hn, Hseen, Hb.
    - intros H. assert (Hk : Kind v = Kind (sv f)).
      { destruct (m !! name); injection H as <- <-; [|reflexivity].
        now destruct (sv f). }
      unfold absorbField. rewrite (resolveName_kind _ _ Hk), Hn, Hseen. cbn [sf sv].
      rewrite Hk, Hb.
      destruct (m !! name); injection H as <- <-; [|reflexivity].
      now destruct (sv f). }
  rewrite (bool_decide_eq_true_2 (EmptyString = EmptyString) eq_refl), Hd.
  destruct (bool_decide (Kind (sv f) = reflect.Slice) ||
            bool_decide (Kind (sv f) = reflect.Array)) eqn:Hk.
  { intros [= <- <-]. replace (mkField (sf f) (sv f)) with f by now destruct f.
    unfold absorbField.
    rewrite Hn, Hseen, (bool_decide_eq_true_2 (EmptyString = EmptyString) eq_refl), Hd.
    now rewrite Hk. }
  destruct (m !! name) as [[|toxicValue rest]|] eqn:Hm;
    try (intros [= <- <-]; replace (mkField (sf f) (sv f)) with f by (now destruct f);
         unfold absorbField;
         rewrite Hn, Hseen, (bool_decide_eq_true_2 (EmptyString = EmptyString) eq_refl), Hd;
         now rewrite Hk, Hm).
  destruct (absorbValue_loop fuel (sv f)) as [u|] eqn:El; [|discriminate].
  intros Hc. destruct (convertString_again _ _ _ _ _ _ _ Hc) as [Hc' Hv].
  destruct Hv as [-> | [Hnp Hkv]].
  { replace (mkField (sf f) (sv f)) with f by now destruct f.
    unfold absorbField.
    rewrite Hn, Hseen, (bool_decide_eq_true_2 (EmptyString = EmptyString) eq_refl), Hd.
    now rewrite Hk, Hm, El. }
  unfold absorbField. rewrite (resolveName_kind _ _ Hkv), Hn, Hseen. cbn [sf sv].
  rewrite (bool_decide_eq_true_2 (EmptyString = EmptyString) eq_refl), Hd, Hkv, Hk, Hm.
  destruct fuel as [|fuel]; [discriminate|].
  rewrite absorbValue_loop_not_ptr by (now rewrite Hkv). exact Hc'.
Qed.

Lemma absorbValue_again fuel m a fs fs' e :
  (forall f, f ∈ fs -> DecodeValues (sf f) = None) ->
  absorbValue fuel m a fs EmptyString = Some (fs', e) ->
  absorbValue fuel m a fs' EmptyString = Some (fs', e).
Proof.
  revert fs'. induction fs as [|f fs IH]; intros fs' Hd H; simpl in H.
  - now injection H as <- <-.
  - assert (Hf : DecodeValues (sf f) = None) by (apply Hd; left).
    destruct (absorbField fuel m a EmptyString f) as [[v [err|]]|] eqn:Ef; try discriminate.
    + injection H as <- <-. cbn [absorbValue].
      now rewrite (absorbField_again _ _ _ _ _ _ Hf Ef).
    + destruct (absorbValue fuel m a fs EmptyString) as [[r err]|] eqn:E; [|discriminate].
      injection H as <- <-. cbn [absorbValue].
      rewrite (absorbField_again _ _ _ _ _ _ Hf Ef). cbn [sf].
      now rewrite (IH r (fun g Hg => Hd g (list_elem_of_further _ _ _ Hg)) eq_refl).
Qed.

Lemma Decode_val_again fuel m val : forall a val' e,
  (forall a' fs f, structOf a val = Some (a', fs) -> f ∈ fs -> DecodeValues (sf f) = None) ->
  Decode_val fuel m a val = Some (val', e) ->
  Decode_val fuel m a val' = Some (val', e).
Proof.
  induction val as [|elem IH|fields|k]; intros a val' e Hd H; cbn [Decode_val] in H.
  - now injection H as <- <-.
  - destruct (Decode_val fuel m true elem) as [[e' err]|] eqn:E; [|discriminate].
    injection H as <- <-. cbn [Decode_val]. now rewrite (IH true e' err Hd E).
  - destruct (absorbValue fuel m a fields EmptyString) as [[r err]|] eqn:E; [|discriminate].
    injection H as <- <-. cbn [Decode_val].
    now rewrite (absorbValue_again _ _ _ _ _ _ (fun f => Hd a fields f eq_refl) E).
  - now injection H as <- <-.
Qed.

(** Decoding again changes nothing: for a record none of whose field types
    has a [DecodeValues], whatever [Decode] returned, with an error or
    without, a second [Decode] of the same mapping into the target as the
    first left it returns the same error and leaves the target as it is. *)
Theorem Decode_again fuel m val val' e :
  (forall a fs f,
     structOf false val = Some (a, fs) -> f ∈ fs -> DecodeValues (sf f) = None) ->
  Decode fuel m (Some val) = Some (Some val', e) ->
  Decode fuel m (Some val') = Some (Some val', e).
Proof.
  intros Hd H. unfold Decode in *.
  destruct (Decode_val fuel m false val) as [[v err]|] eqn:E; [|discriminate].
  injection H as <- <-. now rewrite (Decode_val_again _ _ _ _ _ _ Hd E).
Qed.

End Again.

Section OtherKinds.
Context {platform : Platform}.

(** *** Strings, booleans and numbers that do not parse *)



Lemma convertString_string fuel toxicStr old opts :
  convertString (S fuel) toxicStr (StringValue old) true opts
  = Some (StringValue toxicStr, None).
Proof. reflexivity. Qed.

Lemma converted_turn fuel m f toxicValue v :
  converted m f toxicValue -> sv f = v -> Kind v <> reflect.Ptr ->
  exists opts,
    absorbField (S fuel) m true EmptyString f
    = convertString (S fuel) toxicValue v true opts.
Proof.
  intros Hc Hv Hk. destruct (absorbField_converted (S fuel) m true f _ Hc) as [opts Hf].
  exists opts. rewrite Hf, Hv, absorbValue_loop_not_ptr by exact Hk.
  unfold CanSet. now rewrite (converted_exported _ _ _ Hc).
Qed.

(** A settable string field that comes to conversion takes the first
    value under its name as it is, the empty string included; its turn
    never gives an error, and [Decode] goes on with the next field. *)
Theorem Decode_string_field fuel m val pre pre' f post toxicValue old :
  structOf false val = Some (true, pre ++ f :: post) ->
  absorbValue (S fuel) m true pre EmptyString = Some (pre', None) ->
  converted m f toxicValue ->
  sv f = StringValue old ->
  absorbField (S fuel) m true EmptyString f = Some (StringValue toxicValue, None) /\
  Decode (S fuel) m (Some val)
  = absorbRest (S fuel) m true val pre' (mkField (sf f) (StringValue toxicValue)) post.
Proof.
  intros Hs Hpre Hc Hv.
  destruct (converted_turn fuel m f _ _ Hc Hv) as [opts Hf]; [discriminate|].
  rewrite convertString_string in Hf.
  rewrite (Decode_at_field _ _ _ _ _ _ _ _ Hs Hpre), Hf. auto.
Qed.

(** A settable boolean field that comes to conversion with the string
    [toxicValue]: one of "1", "t", "T", "true", "TRUE", "True" makes it
    true, one of "0", "f", "F", "false", "FALSE", "False" makes it false,
    and any other string, the empty one and other spellings such as "yes"
    among them, ends [Decode] with the syntax error of [strconv.ParseBool]
    for that string, the field as it was. *)
Theorem Decode_bool_field fuel m val pre pre' f post toxicValue old :
  structOf false val = Some (true, pre ++ f :: post) ->
  absorbValue (S fuel) m true pre EmptyString = Some (pre', None) ->
  converted m f toxicValue ->
  sv f = BoolValue old ->
  (toxicValue ∈ ["1"; "t"; "T"; "true"; "TRUE"; "True"] ->
   Decode (S fuel) m (Some val)
   = absorbRest (S fuel) m true val pre' (mkField (sf f) (BoolValue true)) post) /\
  (toxicValue ∈ ["0"; "f"; "F"; "false"; "FALSE"; "False"] ->
   Decode (S fuel) m (Some val)
   = absorbRest (S fuel) m true val pre' (mkField (sf f) (BoolValue false)) post) /\
  (toxicValue ∉ ["1"; "t"; "T"; "true"; "TRUE"; "True"] ->
   toxicValue ∉ ["0"; "f"; "F"; "false"; "FALSE"; "False"] ->
   Decode (S fuel) m (Some val)
   = Some (Some (withFields val (pre' ++ f :: post)),
           Some (ParseError (strconv.syntaxError "ParseBool" toxicValue)))).
Proof.
  intros Hs Hpre Hc Hv.
  destruct (converted_turn fuel m f _ _ Hc Hv) as [opts Hf]; [discriminate|].
  rewrite (Decode_at_field _ _ _ _ _ _ _ _ Hs Hpre), Hf.
  unfold convertString. rewrite convertString_loop_not_ptr by discriminate.
  cbn [negb Kind]. cbv iota. unfold strconv.ParseBool.
  split; [|split].
  - intros Ht. now rewrite (bool_decide_eq_true_2 _ Ht).
  - intros Hfa.
    assert (Hnt : toxicValue ∉ ["1"; "t"; "T"; "true"; "TRUE"; "True"]).
    { intros Ht. apply list_elem_of_In in Hfa, Ht. simpl in Hfa, Ht.
      intuition (subst; discriminate). }
    now rewrite (bool_decide_eq_false_2 _ Hnt), (bool_decide_eq_true_2 _ Hfa).
  - intros Hnt Hnf. rewrite (bool_decide_eq_false_2 _ Hnt), (bool_decide_eq_false_2 _ Hnf).
    rewrite <- Hv. now destruct f.
Qed.


End OtherKinds.

Section Fieldwise.
Context {platform : Platform}.

(** *** Field by field *)

(** Nothing passes from one field to the next: a field decodes the same
    in whatever record it stands. Take two records that are both reached
    through a pointer, or both passed by value (the same [a]), and that
    both hold the field [f], at any places and among any other fields.
    When [Decode] of one mapping returns nil for both, [f] holds the same
    value in both afterwards. (A record passed by value and one reached
    through a pointer differ: only the second is assigned to.) *)
Theorem Decode_field_in_any_record fuel m a val1 val2 val1' val2' fs1 fs2 i j f :
  structOf false val1 = Some (a, fs1) ->
  structOf false val2 = Some (a, fs2) ->
  Decode fuel m (Some val1) = Some (Some val1', None) ->
  Decode fuel m (Some val2) = Some (Some val2', None) ->
  fs1 !! i = Some f ->
  fs2 !! j = Some f ->
  exists fs1' fs2' f',
    structOf false val1' = Some (a, fs1') /\
    structOf false val2' = Some (a, fs2') /\
    fs1' !! i = Some f' /\ fs2' !! j = Some f'.
Proof.
  intros Hs1 Hs2 HD1 HD2 Hi Hj.
  destruct (Decode_result _ _ _ _ _ _ _ HD1 Hs1) as (fs1' & Habs1 & _ & Hs1').
  destruct (Decode_result _ _ _ _ _ _ _ HD2 Hs2) as (fs2' & Habs2 & _ & Hs2').
  destruct (absorbValue_ok_lookup _ _ _ _ _ _ _ Habs1 Hi) as (v1 & Hv1 & Hf1).
  destruct (absorbValue_ok_lookup _ _ _ _ _ _ _ Habs2 Hj) as (v2 & Hv2 & Hf2).
  rewrite Hf1 in Hf2. injection Hf2 as <-.
  exists fs1', fs2', (mkField (sf f) v1). auto.
Qed.

End Fieldwise.

Section PassedOver.
Context {platform : Platform}.

(** *** Fields that are passed over *)

Lemma absorbField_passed_over fuel m a f :
  PkgPath (sf f) <> EmptyString \/
  Tag_Get (Tag (sf f)) "url" = "-" \/
  (Anonymous (sf f) = true /\ Kind (sv f) = reflect.Struct /\
   fst (parseTag (Tag_Get (Tag (sf f)) "url")) = EmptyString) \/
  ((Kind (sv f) = reflect.Slice \/ Kind (sv f) = reflect.Array) /\
   DecodeValues (sf f) = None) ->
  absorbField fuel m a EmptyString f = Some (sv f, None).
Proof.
  intros H. unfold absorbField.
  destruct (resolveName f) as [[name opts]|] eqn:Hn; [|reflexivity].
  unfold resolveName in Hn.
  destruct H as [Hp | [Ht | [(Han & Hk & Hname) | [Hk Hd]]]].
  - now rewrite (bool_decide_eq_false_2 _ Hp) in Hn.
  - rewrite (bool_decide_eq_true_2 _ Ht) in Hn. now destruct (negb _).
  - destruct (parseTag _) as [n o]. simpl in Hname. subst n.
    rewrite Han, (bool_decide_eq_true_2 _ Hk) in Hn.
    rewrite (bool_decide_eq_true_2 (EmptyString = EmptyString) eq_refl) in Hn.
    repeat case_match; discriminate.
  - rewrite Hd.
    assert (Hnb : bool_decide (Kind (sv f) = reflect.Bool) = false)
      by (apply bool_decide_eq_false_2; destruct Hk as [-> | ->]; discriminate).
    assert (Hsa : bool_decide (Kind (sv f) = reflect.Slice) ||
                  bool_decide (Kind (sv f) = reflect.Array) = true).
    { destruct Hk as [Hk | Hk]; rewrite (bool_decide_eq_true_2 _ Hk);
        [reflexivity | apply orb_true_r]. }
    rewrite Hnb, Hsa. now destruct (Contains opts "seen").
Qed.

(** [Decode] never touches a field that is unexported, that is tagged
    ["-"], that is an embedded struct with no name in its tag, or that is
    a slice or an array of a type without [DecodeValues]: whatever the
    mapping holds, under the field's name too, and whatever [Decode]
    returns, the field is as it was, and its turn gives no error. *)
Theorem Decode_passes_over fuel m val val' err a fs i f :
  Decode fuel m (Some val) = Some (Some val', err) ->
  structOf false val = Some (a, fs) ->
  fs !! i = Some f ->
  PkgPath (sf f) <> EmptyString \/
  Tag_Get (Tag (sf f)) "url" = "-" \/
  (Anonymous (sf f) = true /\ Kind (sv f) = reflect.Struct /\
   fst (parseTag (Tag_Get (Tag (sf f)) "url")) = EmptyString) \/
  ((Kind (sv f) = reflect.Slice \/ Kind (sv f) = reflect.Array) /\
   DecodeValues (sf f) = None) ->
  absorbField fuel m a EmptyString f = Some (sv f, None) /\
  exists fs', structOf false val' = Some (a, fs') /\ fs' !! i = Some f.
Proof.
  intros HD Hs Hi Hf. pose proof (absorbField_passed_over fuel m a f Hf) as Ht.
  split; [exact Ht|].
  destruct (Decode_result _ _ _ _ _ _ _ HD Hs) as (fs' & Habs & _ & Hs').
  exists fs'. split; [exact Hs'|].
  destruct (absorbValue_lookup _ _ _ _ _ _ _ _ Habs Hi) as (v & Hv & [-> | [e He]]).
  - rewrite Hv. now destruct f.
  - rewrite Ht in He. injection He as <- _. rewrite Hv. now destruct f.
Qed.

End PassedOver.

(** ** Concrete runs

    Evaluated on [amd64_no_float]; none of the records has a float field. *)

#[local] Existing Instance amd64_no_float.

(** C1 as the specification states it fails: [Decode] into [&ptr_1{}] (so [P] is nil) with a
    value for [P] returns the error of the nil pointer, not nil. *)
Lemma nil_pointer_field_is_an_error :
  Decode 1 {[ "P" := ["5"] ]} (Some (PtrTo (Struct (ptr_1 0 true))))
  = Some (Some (PtrTo (Struct (ptr_1 0 true))), Some NilPointer).
Proof. vm_compute. reflexivity. Qed.

(** An instance of C1 as amended: [B] is decoded, then [P] ends the call. *)
Lemma Decode_nil_pointer_field_witness :
  Decode 1 {[ "B" := ["3"]; "P" := ["5"] ]} (Some (PtrTo (Struct (ptr_1 0 true))))
  = Some (Some (PtrTo (Struct (ptr_1 3 true))), Some NilPointer).
Proof.
  apply (Decode_nil_pointer_field 0 {[ "B" := ["3"]; "P" := ["5"] ]}
           (PtrTo (Struct (ptr_1 0 true))) true
           [exported "B" "" (IntValue kInt 0)] [exported "B" "" (IntValue kInt 3)]
           (exported "P" "" (PtrValue true)) [] "5").
  - reflexivity.
  - vm_compute. reflexivity.
  - reflexivity.
  - exists "P", [], []. repeat split; try discriminate; vm_compute; reflexivity.
Defined.

(** C3 as the specification states it fails: the method of [echo] keeps the string it is
    called with, and after [Decode] the field [A] holds the first value
    under "A", not the name "A". *)
Lemma self_decoding_gets_the_value :
  Decode 1 {[ "A" := ["hello"] ]} (Some (PtrTo (Struct (echo_1 ""))))
  = Some (Some (PtrTo (Struct (echo_1 "hello"))), None).
Proof. vm_compute. reflexivity. Qed.

(** An instance of C3 as amended: only the first of two values reaches
    the method. *)
Lemma Decode_self_decoding_field_witness :
  Decode 1 {[ "A" := ["hello"; "again"] ]} (Some (PtrTo (Struct (echo_1 "before"))))
  = Some (Some (PtrTo (Struct (echo_1 "hello"))), None).
Proof.
  rewrite (Decode_self_decoding_field 1 {[ "A" := ["hello"; "again"] ]}
             (PtrTo (Struct (echo_1 "before"))) true [] []
             (mkField (mkStructField "A" EmptyString [] false (Some echo_DecodeValues))
                (StringValue "before"))
             [] "A" [] echo_DecodeValues);
    vm_compute; reflexivity.
Defined.

(** An instance of C4: "scale" is a key, and [E] becomes true. *)
Lemma Decode_seen_field_witness :
  absorbField 1 {[ "scale" := ["22"] ]} true EmptyString
    (exported "E" "scale,seen" (BoolValue false))
  = Some (BoolValue true, None) /\
  exists fs',
    structOf false (PtrTo (Struct (seen_2 22 true))) = Some (true, fs') /\
    fs' !! 1%nat = Some (exported "E" "scale,seen" (BoolValue true)).
Proof.
  pose proof (Decode_seen_field 1 {[ "scale" := ["22"] ]}
                (PtrTo (Struct (seen_2 0 false))) (PtrTo (Struct (seen_2 22 true)))
                true (seen_2 0 false) 1 (exported "E" "scale,seen" (BoolValue false)))
    as H.
  assert (HD : Decode 1 {[ "scale" := ["22"] ]} (Some (PtrTo (Struct (seen_2 0 false))))
               = Some (Some (PtrTo (Struct (seen_2 22 true))), None))
    by (vm_compute; reflexivity).
  assert (Hseen : Contains (optionsOf (exported "E" "scale,seen" (BoolValue false)))
                    "seen" = true) by (vm_compute; reflexivity).
  specialize (H HD eq_refl eq_refl Hseen). vm_compute in H. vm_compute. exact H.
Defined.

(** C5 as the specification states it fails, twice. A [uintptr] field is
    an unsigned integer field, and with the largest value of its width it
    is not assigned: [Decode] returns the error of an unsupported kind.
    An [int8] field tagged [`url:"b,seen"`] is given 128 under its name
    "b", and [Decode] returns nil: a field with the [seen] option never
    comes to conversion. *)
Lemma integer_field_not_converted :
  Decode 1 {[ "U" := ["18446744073709551615"] ]}
    (Some (PtrTo (Struct [exported "U" "" (OtherValue kUintptr)])))
  = Some (Some (PtrTo (Struct [exported "U" "" (OtherValue kUintptr)])),
          Some (Unsupported reflect.Uintptr)) /\
  Decode 1 {[ "b" := ["128"] ]}
    (Some (PtrTo (Struct [exported "B" "b,seen" (IntValue kInt8 0)])))
  = Some (Some (PtrTo (Struct [exported "B" "b,seen" (IntValue kInt8 0)])), None).
Proof. split; vm_compute; reflexivity. Qed.

(** The tests' [TestDecode_intSize] and [TestDecode_uintSize], and the
    bounds themselves. *)
Lemma Decode_integer_field_witness :
  (Decode 1 {[ "B" := ["128"] ]} (Some (PtrTo (Struct (intsize_1 0))))
   = Some (Some (PtrTo (Struct (intsize_1 0))), Some (Incompatible "128" reflect.Int8)) /\
   Decode 1 {[ "B" := ["127"] ]} (Some (PtrTo (Struct (intsize_1 0))))
   = Some (Some (PtrTo (Struct (intsize_1 127))), None)) /\
  (Decode 1 {[ "B" := ["65536"] ]} (Some (PtrTo (Struct (uintsize_1 0))))
   = Some (Some (PtrTo (Struct (uintsize_1 0))),
           Some (Incompatible "65536" reflect.Uint16)) /\
   Decode 1 {[ "B" := ["65535"] ]} (Some (PtrTo (Struct (uintsize_1 0))))
   = Some (Some (PtrTo (Struct (uintsize_1 65535))), None)).
Proof.
  assert (Hc : forall (s : string) v,
            Kind v <> reflect.Slice -> Kind v <> reflect.Array ->
            converted ({[ "B" := [s] ]} : Values) (exported "B" "" v) s).
  { intros s v Hs Ha. exists "B", [], []. repeat split; try assumption; reflexivity. }
  split; split.
  - destruct (Decode_integer_field 0 {[ "B" := ["128"] ]}
                (PtrTo (Struct (intsize_1 0))) [] []
                (exported "B" "" (IntValue kInt8 0)) [] "128" eq_refl eq_refl)
      as [Hint _]; [apply Hc; discriminate|].
    destruct (Hint kInt8 0 128 eq_refl) as [[HD _] _];
      [vm_compute; reflexivity | right; simpl; lia | exact HD].
  - destruct (Decode_integer_field 0 {[ "B" := ["127"] ]}
                (PtrTo (Struct (intsize_1 0))) [] []
                (exported "B" "" (IntValue kInt8 0)) [] "127" eq_refl eq_refl)
      as [Hint _]; [apply Hc; discriminate|].
    destruct (Hint kInt8 0 127 eq_refl) as [_ [_ HD]];
      [vm_compute; reflexivity | simpl; lia | exact HD].
  - destruct (Decode_integer_field 0 {[ "B" := ["65536"] ]}
                (PtrTo (Struct (uintsize_1 0))) [] []
                (exported "B" "" (UintValue kUint16 0)) [] "65536" eq_refl eq_refl)
      as [_ Huint]; [apply Hc; discriminate|].
    destruct (Huint kUint16 0 65536 eq_refl) as [[HD _] _];
      [vm_compute; reflexivity | simpl; lia | exact HD].
  - destruct (Decode_integer_field 0 {[ "B" := ["65535"] ]}
                (PtrTo (Struct (uintsize_1 0))) [] []
                (exported "B" "" (UintValue kUint16 0)) [] "65535" eq_refl eq_refl)
      as [_ Huint]; [apply Hc; discriminate|].
    destruct (Huint kUint16 0 65535 eq_refl) as [_ [_ HD]];
      [vm_compute; reflexivity | simpl; lia | exact HD].
Defined.





(** An instance of C9: the second value under "B" makes no difference. *)
Lemma Decode_first_value_only_witness :
  Decode 1 {[ "B" := ["3"; "4"]; "P" := [] ]} (Some (PtrTo (Struct (ptr_1 0 true))))
  = Decode 1 {[ "B" := ["3"]; "P" := [] ]} (Some (PtrTo (Struct (ptr_1 0 true)))).
Proof.
  apply Decode_first_value_only, sameFirst_heads. vm_compute. reflexivity.
Defined.

(** C10 as the specification states it fails: [Decode] called with a [ptr_1] itself, [P]
    nil, and a value for [P], returns the error of the nil pointer. *)
Lemma struct_by_value_with_nil_pointer :
  Decode 1 {[ "P" := ["5"] ]} (Some (Struct (ptr_1 0 true)))
  = Some (Some (Struct (ptr_1 0 true)), Some NilPointer).
Proof. vm_compute. reflexivity. Qed.

(** The tests' overflow, with the struct passed by value: nothing is
    reported and nothing changes. *)
Lemma Decode_struct_by_value_witness :
  Decode 1 {[ "B" := ["128"] ]} (Some (Struct (intsize_1 0)))
  = Some (Some (Struct (intsize_1 0)), None).
Proof.
  assert (Hd : forall f, f ∈ intsize_1 0 -> DecodeValues (sf f) = None).
  { intros f Hf. apply list_elem_of_singleton in Hf as ->. reflexivity. }
  apply (proj2 (Decode_struct_by_value 0 {[ "B" := ["128"] ]} (intsize_1 0) Hd)).
  intros f toxicValue Hf. apply list_elem_of_singleton in Hf as ->. discriminate.
Defined.

(** An instance of [Decode_returns]: a nil pointer field does not keep
    the call from returning. *)
Lemma Decode_returns_witness :
  exists r, Decode 1 {[ "B" := ["3"]; "P" := ["5"] ]}
              (Some (PtrTo (Struct (ptr_1 0 true)))) = Some r.
Proof.
  apply (Decode_returns 0 {[ "B" := ["3"]; "P" := ["5"] ]} (PtrTo (Struct (ptr_1 0 true)))).
  intros a fs f [= <- <-] Hf.
  apply elem_of_cons in Hf as [-> | Hf]; [split; [discriminate | reflexivity]|].
  apply list_elem_of_singleton in Hf as ->. split; [discriminate | reflexivity].
Defined.

(** An instance of [Decode_reads_field_names]: "F" and "b" are no field
    of [ptr_1]. *)
Lemma Decode_reads_field_names_witness :
  Decode 1 {[ "B" := ["3"]; "F" := ["1"]; "b" := ["9"] ]}
    (Some (PtrTo (Struct (ptr_1 0 true))))
  = Decode 1 {[ "B" := ["3"] ]} (Some (PtrTo (Struct (ptr_1 0 true)))).
Proof.
  apply (Decode_reads_field_names 1 _ _ (PtrTo (Struct (ptr_1 0 true))) true (ptr_1 0 true)).
  - reflexivity.
  - intros f Hf. apply list_elem_of_In in Hf. simpl in Hf.
    destruct Hf as [<- | [<- | []]]; vm_compute; reflexivity.
Defined.

(** An instance of [Decode_no_field_name], after the tests' "Names are
    case sensitive": keys in lower case and unknown keys leave the record
    as it was. *)
Lemma Decode_no_field_name_witness :
  Decode 1 {[ "a" := ["Johnny"]; "b" := ["3"]; "c" := ["7"]; "e" := ["1"];
              "F" := ["1"]; "G" := ["1"] ]}
    (Some (PtrTo (Struct (flat_2 "" 0 0 false))))
  = Some (Some (PtrTo (Struct (flat_2 "" 0 0 false))), None).
Proof.
  apply (Decode_no_field_name 1 _ (PtrTo (Struct (flat_2 "" 0 0 false))) true
           (flat_2 "" 0 0 false)).
  - reflexivity.
  - intros f Hf. apply list_elem_of_In in Hf. simpl in Hf.
    destruct Hf as [<- | [<- | [<- | [<- | []]]]]; vm_compute; reflexivity.
Defined.

(** An instance of [Decode_stops_at_first_error]: [A] is decoded, [B]
    fails and stays 0, [C] and [E] are not looked at. *)
Lemma Decode_stops_at_first_error_witness :
  exists pre f post pre' v,
    flat_2 "" 0 0 false = pre ++ f :: post /\
    absorbValue 1 {[ "A" := ["x"]; "B" := ["abc"]; "E" := ["1"] ]} true pre EmptyString
    = Some (pre', None) /\
    absorbField 1 {[ "A" := ["x"]; "B" := ["abc"]; "E" := ["1"] ]} true EmptyString f
    = Some (v, Some (ParseError (strconv.syntaxError "ParseInt" "abc"))) /\
    PtrTo (Struct (flat_2 "x" 0 0 false))
    = withFields (PtrTo (Struct (flat_2 "" 0 0 false))) (pre' ++ mkField (sf f) v :: post) /\
    (DecodeValues (sf f) = None -> v = sv f).
Proof.
  apply (Decode_stops_at_first_error 1 {[ "A" := ["x"]; "B" := ["abc"]; "E" := ["1"] ]}
           (PtrTo (Struct (flat_2 "" 0 0 false))) (PtrTo (Struct (flat_2 "x" 0 0 false)))
           true (flat_2 "" 0 0 false)
           (ParseError (strconv.syntaxError "ParseInt" "abc"))).
  - reflexivity.
  - vm_compute. reflexivity.
Defined.

(** An instance of [Decode_error_tells], on the tests' [TestDecode_intSize]. *)
Lemma Decode_error_tells_witness :
  exists f, f ∈ intsize_1 0 /\
    (Kind (sv f) = reflect.Int8 /\
     (exists rest, ({[ "B" := ["128"] ]} : Values) !! nameOf f = Some ("128" :: rest)) /\
     ((exists ik old, sv f = IntValue ik old) \/
      (exists uk old, sv f = UintValue uk old) \/
      (exists old, sv f = FloatValue kFloat32 old))).
Proof.
  apply (Decode_error_tells 1 {[ "B" := ["128"] ]} (PtrTo (Struct (intsize_1 0)))
           (PtrTo (Struct (intsize_1 0))) true (intsize_1 0)
           (Incompatible "128" reflect.Int8)).
  - reflexivity.
  - intros f Hf. apply list_elem_of_singleton in Hf as ->. reflexivity.
  - vm_compute. reflexivity.
Defined.

(** An instance of [Decode_again]: after a [Decode] that failed at [B],
    the same [Decode] fails the same way and changes nothing more. *)
Lemma Decode_again_witness :
  Decode 1 {[ "A" := ["x"]; "B" := ["abc"]; "E" := ["1"] ]}
    (Some (PtrTo (Struct (flat_2 "x" 0 0 false))))
  = Some (Some (PtrTo (Struct (flat_2 "x" 0 0 false))),
          Some (ParseError (strconv.syntaxError "ParseInt" "abc"))).
Proof.
  apply (Decode_again 1 _ (PtrTo (Struct (flat_2 "" 0 0 false)))).
  - intros a fs f [= <- <-] Hf. apply list_elem_of_In in Hf. simpl in Hf.
    destruct Hf as [<- | [<- | [<- | [<- | []]]]]; reflexivity.
  - vm_compute. reflexivity.
Defined.

Lemma converted_exported_field (m : Values) (name : string) v toxicValue rest :
  resolveName (exported name "" v) = Some (name, []) ->
  Kind v <> reflect.Slice -> Kind v <> reflect.Array ->
  m !! name = Some (toxicValue :: rest) ->
  converted m (exported name "" v) toxicValue.
Proof. intros Hn Hs Ha Hm. exists name, [], rest. auto 10. Qed.

(** An instance of [Decode_string_field]: the empty string is a value. *)
Lemma Decode_string_field_witness :
  Decode 1 {[ "A" := [""] ]} (Some (PtrTo (Struct (flat_2 "before" 1 2 true))))
  = Some (Some (PtrTo (Struct (flat_2 "" 1 2 true))), None).
Proof.
  refine (eq_trans
    (proj2 (Decode_string_field 0 {[ "A" := [""] ]}
              (PtrTo (Struct (flat_2 "before" 1 2 true))) [] []
              (exported "A" "" (StringValue "before"))
              [exported "B" "" (IntValue kInt 1); exported "C" "" (UintValue kUint 2);
               exported "E" "" (BoolValue true)]
              "" "before" eq_refl eq_refl _ eq_refl)) _).
  - apply (converted_exported_field _ "A" _ "" []); try discriminate; reflexivity.
  - vm_compute. reflexivity.
Defined.

(** An instance of [Decode_bool_field]: "T" is read as true, "yes" is
    not read. *)
Lemma Decode_bool_field_witness :
  Decode 1 {[ "E" := ["T"] ]} (Some (PtrTo (Struct [exported "E" "" (BoolValue false)])))
  = Some (Some (PtrTo (Struct [exported "E" "" (BoolValue true)])), None) /\
  Decode 1 {[ "E" := ["yes"] ]} (Some (PtrTo (Struct [exported "E" "" (BoolValue false)])))
  = Some (Some (PtrTo (Struct [exported "E" "" (BoolValue false)])),
          Some (ParseError (strconv.syntaxError "ParseBool" "yes"))).
Proof.
  split.
  - refine (eq_trans
      (proj1 (Decode_bool_field 0 {[ "E" := ["T"] ]}
                (PtrTo (Struct [exported "E" "" (BoolValue false)])) [] []
                (exported "E" "" (BoolValue false)) [] "T" false eq_refl eq_refl _ eq_refl)
         _) _).
    + apply (converted_exported_field _ "E" _ "T" []); try discriminate; reflexivity.
    + apply list_elem_of_In. simpl. auto.
    + vm_compute. reflexivity.
  - refine (proj2 (proj2
      (Decode_bool_field 0 {[ "E" := ["yes"] ]}
         (PtrTo (Struct [exported "E" "" (BoolValue false)])) [] []
         (exported "E" "" (BoolValue false)) [] "yes" false eq_refl eq_refl _ eq_refl))
      _ _).
    + apply (converted_exported_field _ "E" _ "yes" []); try discriminate; reflexivity.
    + intros H. apply list_elem_of_In in H. simpl in H. intuition discriminate.
    + intros H. apply list_elem_of_In in H. simpl in H. intuition discriminate.
Defined.


(** An instance of [Decode_field_in_any_record]: [Decode] of "B" = "3"
    into [&ptr_1{}] and into [&flat_2{}] returns nil, and [B] of the one
    and [B] of the other end up the same. *)
Lemma Decode_field_in_any_record_witness :
  Decode 1 {[ "B" := ["3"] ]} (Some (PtrTo (Struct (ptr_1 0 true))))
  = Some (Some (PtrTo (Struct (ptr_1 3 true))), None) /\
  Decode 1 {[ "B" := ["3"] ]} (Some (PtrTo (Struct (flat_2 "" 0 0 false))))
  = Some (Some (PtrTo (Struct (flat_2 "" 3 0 false))), None) /\
  exists fs1' fs2' f',
    structOf false (PtrTo (Struct (ptr_1 3 true))) = Some (true, fs1') /\
    structOf false (PtrTo (Struct (flat_2 "" 3 0 false))) = Some (true, fs2') /\
    fs1' !! 0%nat = Some f' /\ fs2' !! 1%nat = Some f'.
Proof.
  assert (HD1 : Decode 1 {[ "B" := ["3"] ]} (Some (PtrTo (Struct (ptr_1 0 true))))
                = Some (Some (PtrTo (Struct (ptr_1 3 true))), None))
    by (vm_compute; reflexivity).
  assert (HD2 : Decode 1 {[ "B" := ["3"] ]} (Some (PtrTo (Struct (flat_2 "" 0 0 false))))
                = Some (Some (PtrTo (Struct (flat_2 "" 3 0 false))), None))
    by (vm_compute; reflexivity).
  split; [exact HD1|]. split; [exact HD2|].
  exact (Decode_field_in_any_record 1 {[ "B" := ["3"] ]} true
           (PtrTo (Struct (ptr_1 0 true))) (PtrTo (Struct (flat_2 "" 0 0 false)))
           (PtrTo (Struct (ptr_1 3 true))) (PtrTo (Struct (flat_2 "" 3 0 false)))
           (ptr_1 0 true) (flat_2 "" 0 0 false) 0 1 (exported "B" "" (IntValue kInt 0))
           eq_refl eq_refl HD1 HD2 eq_refl eq_refl).
Defined.

(** An instance of [Decode_passes_over]: values under "secret", "Skip" and
    "-" reach neither field of [hidden_1]. *)
Lemma Decode_passes_over_witness :
  absorbField 1 {[ "secret" := ["1"]; "Skip" := ["2"]; "-" := ["3"] ]} true EmptyString
    (exported "Skip" "-" (IntValue kInt 8))
  = Some (IntValue kInt 8, None) /\
  exists fs',
    structOf false (PtrTo (Struct (hidden_1 7 8))) = Some (true, fs') /\
    fs' !! 1%nat = Some (exported "Skip" "-" (IntValue kInt 8)).
Proof.
  apply (Decode_passes_over 1 {[ "secret" := ["1"]; "Skip" := ["2"]; "-" := ["3"] ]}
           (PtrTo (Struct (hidden_1 7 8))) (PtrTo (Struct (hidden_1 7 8))) None
           true (hidden_1 7 8) 1 (exported "Skip" "-" (IntValue kInt 8))).
  - vm_compute. reflexivity.
  - reflexivity.
  - reflexivity.
  - right. left. reflexivity.
Defined.
